(** * qutebrowser.misc.elf: the simplistic ELF parser used to find the
      QtWebEngine/Chromium versions inside libQt5WebEngineCore.so.

    The development embeds [src/qutebrowser/misc/elf.py] in Rocq:
    the binary layouts handed to [struct], the file object the parser
    reads and seeks, the exceptions it raises and catches, the section
    scan of [get_rodata_header], the regular expression search of
    [_parse_from_path] and the boundary [parse_webenginecore].  It
    ends with the choice that [main] of [src/scripts/importer.py] makes
    of what to import. *)

From Stdlib Require Import ZArith List Bool Lia PeanoNat.
From Stdlib Require Import Strings.Byte Strings.String Strings.Ascii.
Import ListNotations.

Local Open Scope Z_scope.

(** ** Bytes *)

(** A Python [bytes] value is a list of bytes; [b"..."] literals are
    written through [bytes_of]. *)
Definition bytes : Type := list byte.

Definition bytes_of (s : string) : bytes := list_byte_of_string s.

Definition byte_val (b : byte) : Z := Z.of_N (Byte.to_N b).
Arguments byte_val : simpl never.

Fixpoint bytes_eqb (a b : bytes) : bool :=
  match a, b with
  | [], [] => true
  | x :: a', y :: b' => Byte.eqb x y && bytes_eqb a' b'
  | _, _ => false
  end.

(** ** The [struct] module, restricted to the codes the parser uses *)

Module Struct.

(** One code of a format string; every format of the parser starts
    with ['<'] (little-endian, standard sizes, no alignment). *)
Inductive code :=
| s_ (n : nat)   (* ns : n raw bytes *)
| B_             (* unsigned char, 1 byte *)
| H_             (* unsigned short, 2 bytes *)
| I_             (* unsigned int, 4 bytes *)
| Q_             (* unsigned long long, 8 bytes *)
| x_ (n : nat).  (* nx : n pad bytes, no value *)

Inductive value :=
| VBytes (b : bytes)
| VInt (z : Z).

Definition code_size (c : code) : nat :=
  match c with
  | s_ n => n | B_ => 1 | H_ => 2 | I_ => 4 | Q_ => 8 | x_ n => n
  end.

Definition calcsize (fmt : list code) : nat :=
  fold_right (fun c acc => (code_size c + acc)%nat) 0%nat fmt.

(** Little-endian unsigned integer held by a chunk of bytes. *)
Fixpoint le_int (bs : bytes) : Z :=
  match bs with
  | [] => 0
  | b :: bs' => byte_val b + 256 * le_int bs'
  end.

Fixpoint fields (fmt : list code) (data : bytes) : list value :=
  match fmt with
  | [] => []
  | c :: fmt' =>
      let chunk := firstn (code_size c) data in
      let rest := skipn (code_size c) data in
      match c with
      | s_ _ => VBytes chunk :: fields fmt' rest
      | x_ _ => fields fmt' rest
      | _ => VInt (le_int chunk) :: fields fmt' rest
      end
  end.

(** [struct.unpack(fmt, data)]: [None] stands for [struct.error],
    raised when the buffer does not have exactly [calcsize fmt]
    bytes. *)
Definition unpack (fmt : list code) (data : bytes) : option (list value) :=
  if Nat.eqb (List.length data) (calcsize fmt)
  then Some (fields fmt data)
  else None.

(** Little-endian encoding on [n] bytes, used to build sample files. *)
Fixpoint le_bytes (n : nat) (z : Z) : bytes :=
  match n with
  | O => []
  | S n' =>
      match Byte.of_N (Z.to_N (z mod 256)) with
      | Some b => b :: le_bytes n' (z / 256)
      | None => x00 :: le_bytes n' (z / 256)
      end
  end.

End Struct.

(** ** Exceptions *)

(** What a [ParseError] was built from: either another exception that
    the parser wrapped, or one of its own messages. *)
Inductive reason :=
| FromOSError                       (* ParseError(e), e : OSError *)
| FromStructError                   (* ParseError(e), e : struct.error *)
| FromUnicodeDecodeError            (* ParseError(e), e : UnicodeDecodeError *)
| InvalidBitness (klass : Z)        (* "Invalid bitness {klass}" *)
| InvalidEndianness (data : Z)      (* "Invalid endianness {data}" *)
| InvalidMagic (magic : bytes)      (* "Invalid magic {ident.magic!r}" *)
| BigEndianUnsupported              (* "Big endian is unsupported" *)
| UnsupportedVersion (version : Z)  (* "Only version 1 is supported, not ..." *)
| NoRodata                          (* "No .rodata section found" *)
| NoMatch.                          (* "No match in .rodata" *)

Inductive exn :=
| ParseError (r : reason)
| OSError
| StructError
| ValueError
| OverflowError
| TypeError
| IndexError
| UnicodeDecodeError
| MemoryError.

(** ** The file object *)

Inductive io_event :=
| EvRead (size : Z)
| EvSeek (offset : Z)
| EvMmap (length offset : Z).

(** A binary file opened for reading.  [content] never changes;
    [os_error] is the environment: given the calls made so far (the
    last one being the call in progress) it tells whether the operating
    system reports an error for it.  [granularity] is
    [mmap.ALLOCATIONGRANULARITY].  [memory] is the size of the largest
    buffer that the interpreter can allocate for a read.  [pos] is the
    stream position and [trace] the calls made on the object, oldest
    first. *)
Record fobj := mkfobj {
  content : bytes;
  os_error : list io_event -> bool;
  granularity : Z;
  memory : Z;
  pos : Z;
  trace : list io_event
}.

(** The memory of the sample files: 1 GiB. *)
Definition sample_memory : Z := 2 ^ 30.

(** A file just opened, on an interpreter with the memory of the
    samples. *)
Definition fopen (bs : bytes) (oracle : list io_event -> bool) (g : Z) : fobj :=
  mkfobj bs oracle g sample_memory 0 [].

Definition no_os_error (_ : list io_event) : bool := false.

Definition log (ev : io_event) (f : fobj) : fobj :=
  mkfobj (content f) (os_error f) (granularity f) (memory f) (pos f)
         (trace f ++ [ev]).

Definition set_pos (p : Z) (f : fobj) : fobj :=
  mkfobj (content f) (os_error f) (granularity f) (memory f) p (trace f).

Definition file_size (f : fobj) : Z := Z.of_nat (List.length (content f)).

(** [content[off : off + n]] with Python's clipping at the end. *)
Definition slice (bs : bytes) (off n : Z) : bytes :=
  firstn (Z.to_nat n) (skipn (Z.to_nat off) bs).

(** Largest value of [Py_ssize_t] and of [off_t] on a 64-bit platform. *)
Definition ssize_max : Z := 2 ^ 63 - 1.

(** Largest size of a [bytes] object: [PY_SSIZE_T_MAX] less the 33
    bytes of its header. *)
Definition bytes_max : Z := ssize_max - 33.

(** Largest read that the interpreter can allocate.  The 64 bytes of
    the largest fixed layout are always there: an interpreter without
    them does not run the parser. *)
Definition read_limit (f : fobj) : Z := Z.max 64 (memory f).

(** ** Computations on a file object that may raise *)

Inductive outcome (A : Type) :=
| Ret (a : A) (f : fobj)
| Raise (e : exn) (f : fobj).
Arguments Ret {A} a f.
Arguments Raise {A} e f.

Definition M (A : Type) := fobj -> outcome A.

Definition ret {A} (a : A) : M A := fun f => Ret a f.
Definition raise {A} (e : exn) : M A := fun f => Raise e f.
Definition bind {A B} (m : M A) (k : A -> M B) : M B :=
  fun f => match m f with
           | Ret a f' => k a f'
           | Raise e f' => Raise e f'
           end.

(** [try: m  except <the exceptions selected by handles> as e: h e] *)
Definition try_except {A} (m : M A) (handles : exn -> bool) (h : exn -> M A)
  : M A :=
  fun f => match m f with
           | Ret a f' => Ret a f'
           | Raise e f' => if handles e then h e f' else Raise e f'
           end.

Notation "x <- m ;; k" := (bind m (fun x => k))
  (at level 61, m at next level, right associativity).
Notation "m ;;; k" := (bind m (fun _ => k))
  (at level 61, right associativity).

Definition is_OSError (e : exn) : bool :=
  match e with OSError => true | _ => false end.
Definition is_StructError (e : exn) : bool :=
  match e with StructError => true | _ => false end.
Definition is_UnicodeDecodeError (e : exn) : bool :=
  match e with UnicodeDecodeError => true | _ => false end.
Definition is_ParseError (e : exn) : bool :=
  match e with ParseError _ => true | _ => false end.

(** [fobj.read(size)] on a buffered binary file: at most [size] bytes
    from the current position, fewer at the end of the file, none past
    it.  The buffer of [size] bytes is allocated before anything is
    read: a size that does not fit a [bytes] object is refused with
    [OverflowError], one that the interpreter cannot allocate with
    [MemoryError], whatever the file holds; an error of the operating
    system is [OSError]. *)
Definition read (size : Z) : M bytes := fun f =>
  let f1 := log (EvRead size) f in
  if bytes_max <? size then Raise OverflowError f1
  else if read_limit f1 <? size then Raise MemoryError f1
  else if os_error f1 (trace f1) then Raise OSError f1
  else
    let data := if size <? 0 then skipn (Z.to_nat (pos f1)) (content f1)
                else slice (content f1) (pos f1) size in
    Ret data (set_pos (pos f1 + Z.of_nat (List.length data)) f1).

(** [fobj.seek(offset)]: absolute positioning.  Seeking past the end is
    allowed.  An offset that does not fit [off_t] is refused with
    [ValueError] (buffered files; [io.BytesIO] raises [OverflowError]),
    a negative one or an error of the operating system with [OSError]. *)
Definition seek (offset : Z) : M Z := fun f =>
  let f1 := log (EvSeek offset) f in
  if ssize_max <? offset then Raise ValueError f1
  else if (offset <? 0) || os_error f1 (trace f1) then Raise OSError f1
  else Ret offset (set_pos offset f1).

(** [mmap.mmap(f.fileno(), length, offset=offset, access=ACCESS_READ)]
    on Unix, as a read-only view of the mapped bytes.  Arguments that do
    not fit their C types or are negative raise [OverflowError]; a range
    not inside the file raises [ValueError]; length 0 maps the file from
    [offset] to its end; the system call fails with [OSError] when the
    offset is not a multiple of the allocation granularity, or for its
    own reasons. *)
Definition mmap (length offset : Z) : M bytes := fun f =>
  let f1 := log (EvMmap length offset) f in
  let st_size := file_size f1 in
  let map (n : Z) :=
    if negb (offset mod granularity f1 =? 0) || os_error f1 (trace f1)
    then Raise OSError f1
    else Ret (slice (content f1) offset n) f1 in
  if (ssize_max <? length) || (ssize_max <? offset) then Raise OverflowError f1
  else if (length <? 0) || (offset <? 0) then Raise OverflowError f1
  else if length =? 0 then
    if st_size =? 0 then Raise ValueError f1
    else if st_size <=? offset then Raise ValueError f1
    else map (st_size - offset)
  else if (st_size <? offset) || (st_size - offset <? length)
    then Raise ValueError f1
  else map length.

(** ** The parser *)

Inductive Bitness := x32 | x64.

(** [Bitness(klass)]: [None] stands for the [ValueError] of [enum]. *)
Definition Bitness_of_value (v : Z) : option Bitness :=
  if v =? 1 then Some x32 else if v =? 2 then Some x64 else None.

Inductive Endianness := little | big.

Definition Endianness_of_value (v : Z) : option Endianness :=
  if v =? 1 then Some little else if v =? 2 then Some big else None.

Definition Endianness_eqb (a b : Endianness) : bool :=
  match a, b with
  | little, little | big, big => true
  | _, _ => false
  end.

Import Struct.

Definition struct_unpack (fmt : list code) (data : bytes) : M (list value) :=
  match unpack fmt data with
  | Some vals => ret vals
  | None => raise StructError
  end.

Definition _unpack (fmt : list code) : M (list value) :=
  let size := calcsize fmt in
  data <- try_except (read (Z.of_nat size)) is_OSError
            (fun _ => raise (ParseError FromOSError)) ;;
  try_except (struct_unpack fmt data) is_StructError
    (fun _ => raise (ParseError FromStructError)).

Module Ident.

Record t := mk {
  magic : bytes;
  klass : Bitness;
  data : Endianness;
  version : Z;
  osabi : Z;
  abiversion : Z
}.

(** ['<4sBBBBB7x'] *)
Definition _FORMAT : list code := [s_ 4; B_; B_; B_; B_; B_; x_ 7].

Definition parse : M t :=
  vals <- _unpack _FORMAT ;;
  match vals with
  | [VBytes magic; VInt klass; VInt data; VInt version; VInt osabi;
     VInt abiversion] =>
      match Bitness_of_value klass with
      | None => raise (ParseError (InvalidBitness klass))
      | Some bitness =>
          match Endianness_of_value data with
          | None => raise (ParseError (InvalidEndianness data))
          | Some endianness =>
              ret (mk magic bitness endianness version osabi abiversion)
          end
      end
  | _ => raise ValueError
  end.

End Ident.

Module Header.

Record t := mk {
  typ : Z;
  machine : Z;
  version : Z;
  entry : Z;
  phoff : Z;
  shoff : Z;
  flags : Z;
  ehsize : Z;
  phentsize : Z;
  phnum : Z;
  shentsize : Z;
  shnum : Z;
  shstrndx : Z
}.

(** ['<HHIQQQIHHHHHH'] and ['<HHIIIIIHHHHHH'] *)
Definition _FORMATS (b : Bitness) : list code :=
  match b with
  | x64 => [H_; H_; I_; Q_; Q_; Q_; I_; H_; H_; H_; H_; H_; H_]
  | x32 => [H_; H_; I_; I_; I_; I_; I_; H_; H_; H_; H_; H_; H_]
  end.

Definition parse (bitness : Bitness) : M t :=
  let fmt := _FORMATS bitness in
  vals <- _unpack fmt ;;
  match vals with
  | [VInt a; VInt b; VInt c; VInt d; VInt e; VInt f; VInt g; VInt h;
     VInt i; VInt j; VInt k; VInt l; VInt m] =>
      ret (mk a b c d e f g h i j k l m)
  | _ => raise TypeError
  end.

End Header.

Module SectionHeader.

Record t := mk {
  name : Z;
  typ : Z;
  flags : Z;
  addr : Z;
  offset : Z;
  size : Z;
  link : Z;
  info : Z;
  addralign : Z;
  entsize : Z
}.

(** ['<IIQQQQIIQQ'] and ['<IIIIIIIIII'] *)
Definition _FORMATS (b : Bitness) : list code :=
  match b with
  | x64 => [I_; I_; Q_; Q_; Q_; Q_; I_; I_; Q_; Q_]
  | x32 => [I_; I_; I_; I_; I_; I_; I_; I_; I_; I_]
  end.

Definition parse (bitness : Bitness) : M t :=
  let fmt := _FORMATS bitness in
  vals <- _unpack fmt ;;
  match vals with
  | [VInt a; VInt b; VInt c; VInt d; VInt e; VInt f; VInt g; VInt h;
     VInt i; VInt j] =>
      ret (mk a b c d e f g h i j)
  | _ => raise TypeError
  end.

End SectionHeader.

(** *** Section names *)

(** [b[start:]] for a Python integer [start]: a negative start counts
    from the end, and every start is clipped to the bytes there are. *)
Definition slice_from (b : bytes) (start : Z) : bytes :=
  if start <? 0
  then skipn (Z.to_nat (Z.max 0 (Z.of_nat (List.length b) + start))) b
  else skipn (Z.to_nat start) b.

(** [b.split(sep)] for a one-byte separator: the pieces between the
    separators, in order; always at least one piece. *)
Fixpoint split (sep : byte) (b : bytes) : list bytes :=
  match b with
  | [] => [[]]
  | c :: b' =>
      if Byte.eqb c sep then [] :: split sep b'
      else match split sep b' with
           | piece :: pieces => (c :: piece) :: pieces
           | [] => [[c]]
           end
  end.

(** [l[0]], raising [IndexError] on an empty list. *)
Definition index0 {A} (l : list A) : M A :=
  match l with
  | a :: _ => ret a
  | [] => raise IndexError
  end.

(** [string_table[sh.name:].split(b'\x00')[0]] *)
Definition section_name (string_table : bytes) (name : Z) : M bytes :=
  index0 (split x00 (slice_from string_table name)).

Definition rodata : bytes := bytes_of ".rodata".

Definition ELF_MAGIC : bytes := [x7f; x45; x4c; x46].

(** The [for i in range(header.shnum)] loop, [n] iterations left and
    [i] the current index. *)
Fixpoint scan (bitness : Bitness) (header : Header.t) (string_table : bytes)
    (n : nat) (i : Z) : M SectionHeader.t :=
  match n with
  | O => raise (ParseError NoRodata)
  | S n' =>
      seek (Header.shoff header + i * Header.shentsize header) ;;;
      sh <- SectionHeader.parse bitness ;;
      name <- section_name string_table (SectionHeader.name sh) ;;
      if bytes_eqb name rodata then ret sh
      else scan bitness header string_table n' (i + 1)
  end.

Definition get_rodata_header : M SectionHeader.t :=
  ident <- Ident.parse ;;
  if negb (bytes_eqb (Ident.magic ident) ELF_MAGIC)
  then raise (ParseError (InvalidMagic (Ident.magic ident)))
  else if negb (Endianness_eqb (Ident.data ident) little)
  then raise (ParseError BigEndianUnsupported)
  else if negb (Ident.version ident =? 1)
  then raise (ParseError (UnsupportedVersion (Ident.version ident)))
  else
    header <- Header.parse (Ident.klass ident) ;;
    (* Read string table *)
    seek (Header.shoff header
          + Header.shstrndx header * Header.shentsize header) ;;;
    shstr <- SectionHeader.parse (Ident.klass ident) ;;
    seek (SectionHeader.offset shstr) ;;;
    string_table <- read (SectionHeader.size shstr) ;;
    (* Back to all sections *)
    scan (Ident.klass ident) header string_table
         (Z.to_nat (Header.shnum header)) 0.

(** *** The regular expression of the version marker *)

(** The constructs of [re] that the pattern uses. *)
Inductive regex :=
| Lit (b : bytes)                  (* literal bytes *)
| ClassPlus (cls : byte -> bool)   (* [...]+ : greedy, one or more *)
| Group (r : regex)                (* ( r ) : capturing group *)
| Seq (r1 r2 : regex).             (* r1 r2 *)

Fixpoint strip_prefix (p s : bytes) : option bytes :=
  match p, s with
  | [], _ => Some s
  | a :: p', c :: s' => if Byte.eqb a c then strip_prefix p' s' else None
  | _ :: _, [] => None
  end.

(** Greedy repetition with backtracking: the longest run is tried
    first, then shorter ones, until the rest of the pattern ([k])
    matches. *)
Fixpoint star {R} (cls : byte -> bool) (s : bytes) (k : bytes -> option R)
  : option R :=
  match s with
  | c :: s' =>
      if cls c
      then match star cls s' k with
           | Some r => Some r
           | None => k s
           end
      else k s
  | [] => k []
  end.

(** What a pattern consumed, given the input before and after it. *)
Definition consumed (s rest : bytes) : bytes :=
  firstn (List.length s - List.length rest) s.

(** Backtracking matcher anchored at the start of [s]; [caps] holds the
    groups closed so far, in order, and [k] is the rest of the match. *)
Fixpoint rmatch {R} (r : regex) (s : bytes) (caps : list bytes)
    (k : bytes -> list bytes -> option R) : option R :=
  match r with
  | Lit b =>
      match strip_prefix b s with
      | Some rest => k rest caps
      | None => None
      end
  | ClassPlus cls =>
      match s with
      | c :: s' => if cls c then star cls s' (fun rest => k rest caps)
                   else None
      | [] => None
      end
  | Group r1 =>
      rmatch r1 s caps (fun rest caps' => k rest (caps' ++ [consumed s rest]))
  | Seq r1 r2 =>
      rmatch r1 s caps (fun rest caps' => rmatch r2 rest caps' k)
  end.

Definition match_here (r : regex) (s : bytes) : option (list bytes) :=
  rmatch r s [] (fun _ caps => Some caps).

(** [re.search(r, s)]: the match at the leftmost position that has
    one; the result is the list of its groups. *)
Fixpoint re_search (r : regex) (s : bytes) : option (list bytes) :=
  match match_here r s with
  | Some caps => Some caps
  | None =>
      match s with
      | [] => None
      | _ :: s' => re_search r s'
      end
  end.

(** [match.group(n)] for [n >= 1]. *)
Definition group (caps : list bytes) (n : nat) : M bytes :=
  match nth_error caps (n - 1) with
  | Some g => ret g
  | None => raise IndexError
  end.

(** [[0-9.]] *)
Definition version_char (c : byte) : bool :=
  ((48 <=? byte_val c) && (byte_val c <=? 57)) || Byte.eqb c x2e.

(** [br'QtWebEngine/([0-9.]+) Chrome/([0-9.]+)'] *)
Definition pattern : regex :=
  Seq (Lit (bytes_of "QtWebEngine/"))
      (Seq (Group (ClassPlus version_char))
           (Seq (Lit (bytes_of " Chrome/"))
                (Group (ClassPlus version_char)))).

(** [b.decode('ascii')] *)
Definition decode_ascii (b : bytes) : M string :=
  if forallb (fun c => byte_val c <? 128) b
  then ret (string_of_list_byte b)
  else raise UnicodeDecodeError.

Record Versions := mkVersions {
  webengine : string;
  chromium : string
}.

(** The body of [_parse_from_path] once the section is mapped:
    lines 251 to 264. *)
Definition find_versions (region : bytes) : M Versions :=
  match re_search pattern region with
  | None => raise (ParseError NoMatch)
  | Some m =>
      try_except
        (g1 <- group m 1 ;;
         w <- decode_ascii g1 ;;
         g2 <- group m 2 ;;
         c <- decode_ascii g2 ;;
         ret (mkVersions w c))
        is_UnicodeDecodeError
        (fun _ => raise (ParseError FromUnicodeDecodeError))
  end.

(** [_parse_from_path], run on the file that [path.open('rb')] gave
    (a failure to open the file is outside the model). *)
Definition _parse_from_path : M Versions :=
  sh <- get_rodata_header ;;
  region <- try_except
              (mmap (SectionHeader.size sh) (SectionHeader.offset sh))
              is_OSError
              (fun _ => raise (ParseError FromOSError)) ;;
  find_versions region.

(** A file of the file system: its bytes and its environment. *)
Record disk_file := mkdisk {
  df_content : bytes;
  df_os_error : list io_event -> bool;
  df_granularity : Z;
  df_memory : Z
}.

Definition path_open (d : disk_file) : fobj :=
  mkfobj (df_content d) (df_os_error d) (df_granularity d) (df_memory d)
         0 [].

(** What a call of [parse_webenginecore] does: it returns a value of
    [Optional[Versions]], or an exception leaves it. *)
Inductive call_result :=
| Returns (v : option Versions)
| Propagates (e : exn).

(** [parse_webenginecore]; [lib_file] is what the path
    [LibrariesPath / 'libQt5WebEngineCore.so'] holds, [None] when
    [lib_file.exists()] is false. *)
Definition parse_webenginecore (lib_file : option disk_file) : call_result :=
  match lib_file with
  | None => Returns None
  | Some d =>
      match try_except
              (v <- _parse_from_path ;; ret (Some v))
              is_ParseError
              (fun _ => ret None)
              (path_open d) with
      | Ret v _ => Returns v
      | Raise e _ => Propagates e
      end
  end.

(** ** Sample files *)

Module Samples.

Definition ident_bytes (klass data version : Z) : bytes :=
  ELF_MAGIC ++ le_bytes 1 klass ++ le_bytes 1 data ++ le_bytes 1 version
    ++ le_bytes 1 0 ++ le_bytes 1 0 ++ repeat x00 7.

(** A 64-bit primary header with the given section table. *)
Definition header64_bytes (shoff shentsize shnum shstrndx : Z) : bytes :=
  le_bytes 2 3 ++ le_bytes 2 62 ++ le_bytes 4 1 ++ le_bytes 8 0
    ++ le_bytes 8 0 ++ le_bytes 8 shoff ++ le_bytes 4 0 ++ le_bytes 2 64
    ++ le_bytes 2 0 ++ le_bytes 2 0 ++ le_bytes 2 shentsize
    ++ le_bytes 2 shnum ++ le_bytes 2 shstrndx.

(** A 64-bit section-header entry. *)
Definition sh64_bytes (name offset size : Z) : bytes :=
  le_bytes 4 name ++ le_bytes 4 1 ++ le_bytes 8 0 ++ le_bytes 8 0
    ++ le_bytes 8 offset ++ le_bytes 8 size ++ le_bytes 4 0 ++ le_bytes 4 0
    ++ le_bytes 8 1 ++ le_bytes 8 0.

(** "\0.rodata\0.shstrtab\0.text\0" : offsets 0, 1, 9 and 19. *)
Definition strtab : bytes :=
  x00 :: bytes_of ".rodata" ++ x00 :: bytes_of ".shstrtab"
      ++ x00 :: bytes_of ".text" ++ [x00].

Definition pad_to (n : nat) (b : bytes) : bytes :=
  b ++ repeat x00 (n - List.length b).

(** ident, header, three entries at 64 (of names [n0], [n1] and
    .shstrtab) and the string table at 256; entry 1 describes [size]
    bytes at [off]. *)
Definition table64 (n0 n1 off size : Z) : bytes :=
  pad_to 256
    (ident_bytes 2 1 1 ++ header64_bytes 64 64 3 2
       ++ sh64_bytes n0 0 0
       ++ sh64_bytes n1 off size
       ++ sh64_bytes 9 256 (Z.of_nat (List.length strtab)))
    ++ strtab.

(** The same with [body] at 4096, described by entry 1. *)
Definition elf64 (n0 n1 : Z) (body : bytes) : bytes :=
  pad_to 4096 (table64 n0 n1 4096 (Z.of_nat (List.length body))) ++ body.

(** The same with [body] right after the string table, at 281. *)
Definition packed64 (n0 n1 : Z) (body : bytes) : bytes :=
  table64 n0 n1 281 (Z.of_nat (List.length body)) ++ body.

Definition on_disk (b : bytes) : disk_file :=
  mkdisk b no_os_error 4096 sample_memory.

End Samples.

(** ** Vocabulary of the specification *)

(** The failure kinds of the specification, and the kind of each
    [ParseError] the parser builds. *)
Inductive failure_kind :=
| IOFailure | FormatFailure | NotFoundFailure | DecodeFailure.

Definition kind_of (r : reason) : failure_kind :=
  match r with
  | FromOSError | FromStructError => IOFailure
  | InvalidBitness _ | InvalidEndianness _ | InvalidMagic _
  | BigEndianUnsupported | UnsupportedVersion _ => FormatFailure
  | NoRodata | NoMatch => NotFoundFailure
  | FromUnicodeDecodeError => DecodeFailure
  end.

(** The bytes of [b] up to, and not including, its first null byte. *)
Fixpoint until_nul (b : bytes) : bytes :=
  match b with
  | [] => []
  | c :: b' => if Byte.eqb c x00 then [] else c :: until_nul b'
  end.

(** The name that a string table gives to a name offset. *)
Definition resolved_name (string_table : bytes) (name : Z) : bytes :=
  until_nul (slice_from string_table name).

(** The operating system reports no error on this file. *)
Definition nominal (f : fobj) : Prop := forall t, os_error f t = false.

(** [f'] is the same file as [f], possibly at another position and
    after more calls. *)
Definition same_file (f f' : fobj) : Prop :=
  content f' = content f /\ os_error f' = os_error f
  /\ granularity f' = granularity f /\ memory f' = memory f.

(** *** Reading a fixed layout *)

(** The file after [read size] returned. *)
Definition after_read (size : Z) (f : fobj) : fobj :=
  set_pos (pos f + Z.of_nat (List.length (slice (content f) (pos f) size)))
          (log (EvRead size) f).

(** *** The identification block *)

(** The 16 bytes that [Ident.parse] reads from [f]. *)
Definition ident_block (f : fobj) : bytes := slice (content f) (pos f) 16.

Definition ident_byte (blk : bytes) (n : nat) : Z := byte_val (nth n blk x00).

(** The conditions on the identification block; each gives the failure
    it stands for when it is violated. *)
Definition check_short (blk : bytes) : option reason :=
  if Nat.ltb (List.length blk) 16 then Some FromStructError else None.

Definition check_magic (blk : bytes) : option reason :=
  if bytes_eqb (firstn 4 blk) ELF_MAGIC then None
  else Some (InvalidMagic (firstn 4 blk)).

Definition check_class (blk : bytes) : option reason :=
  match Bitness_of_value (ident_byte blk 4) with
  | Some _ => None
  | None => Some (InvalidBitness (ident_byte blk 4))
  end.

Definition check_byte_order (blk : bytes) : option reason :=
  match Endianness_of_value (ident_byte blk 5) with
  | Some _ => None
  | None => Some (InvalidEndianness (ident_byte blk 5))
  end.

Definition check_big_endian (blk : bytes) : option reason :=
  if ident_byte blk 5 =? 2 then Some BigEndianUnsupported else None.

Definition check_version (blk : bytes) : option reason :=
  if ident_byte blk 6 =? 1 then None
  else Some (UnsupportedVersion (ident_byte blk 6)).

Fixpoint first_violation (checks : list (bytes -> option reason))
    (blk : bytes) : option reason :=
  match checks with
  | [] => None
  | check :: checks' =>
      match check blk with
      | Some r => Some r
      | None => first_violation checks' blk
      end
  end.

(** The order in which the specification lists the conditions. *)
Definition specified_order : list (bytes -> option reason) :=
  [check_short; check_magic; check_class; check_byte_order;
   check_big_endian; check_version].

(** The order in which [Ident.parse] and then [get_rodata_header]
    test them. *)
Definition tested_order : list (bytes -> option reason) :=
  [check_short; check_class; check_byte_order; check_magic;
   check_big_endian; check_version].

(** An identification block with a wrong magic and class byte 7. *)
Definition bad_magic_bad_class : bytes :=
  [x7f; x45; x4c; x47; x07; x01; x01; x00;
   x00; x00; x00; x00; x00; x00; x00; x00].

(** A big-endian 64-bit identification block, with nothing after it. *)
Definition big_endian_ident : bytes :=
  [x7f; x45; x4c; x46; x02; x02; x01; x00;
   x00; x00; x00; x00; x00; x00; x00; x00].

(** *** The version marker *)

(** A [<version>]: one or more characters among the digits and the
    period. *)
Definition is_version (v : bytes) : Prop :=
  v <> [] /\ forallb version_char v = true.

(** The marker of the specification's example, and its version. *)
Definition marker : bytes :=
  bytes_of "QtWebEngine/89.0.4389.90 Chrome/89.0.4389.90".
Definition marker_version : bytes := bytes_of "89.0.4389.90".

Definition QT : bytes := bytes_of "QtWebEngine/".
Definition CH : bytes := bytes_of " Chrome/".

(** The marker pattern ["QtWebEngine/" v1 " Chrome/" v2] occurs in
    [region] at position [i]. *)
Definition occurs_at (region : bytes) (i : nat) (v1 v2 : bytes) : Prop :=
  is_version v1 /\ is_version v2
  /\ exists rest, skipn i region = QT ++ v1 ++ CH ++ v2 ++ rest.

(** The longest prefix of [s] made of characters of [cls], and what
    follows it. *)
Fixpoint run (cls : byte -> bool) (s : bytes) : bytes :=
  match s with
  | c :: s' => if cls c then c :: run cls s' else []
  | [] => []
  end.

Fixpoint after_run (cls : byte -> bool) (s : bytes) : bytes :=
  match s with
  | c :: s' => if cls c then after_run cls s' else s
  | [] => []
  end.

(** The marker read greedily at the start of [s]. *)
Definition marker_at (s : bytes) : option (bytes * bytes) :=
  match strip_prefix QT s with
  | None => None
  | Some r1 =>
      match run version_char r1 with
      | [] => None
      | v1 =>
          match strip_prefix CH (after_run version_char r1) with
          | None => None
          | Some r2 =>
              match run version_char r2 with
              | [] => None
              | v2 => Some (v1, v2)
              end
          end
      end
  end.

(** *** The section-header table *)

(** Size of one section-header entry: 0x28 or 0x40. *)
Definition sh_size (b : Bitness) : Z :=
  Z.of_nat (calcsize (SectionHeader._FORMATS b)).

(** Size of the primary header after the identification block: 0x24 or
    0x30. *)
Definition header_size (b : Bitness) : Z :=
  Z.of_nat (calcsize (Header._FORMATS b)).

(** File offset of the entry of index [i]. *)
Definition entry_offset (h : Header.t) (i : Z) : Z :=
  Header.shoff h + i * Header.shentsize h.

Definition decode_entry (b : Bitness) (data : bytes) : option SectionHeader.t :=
  match fields (SectionHeader._FORMATS b) data with
  | [VInt n0; VInt n1; VInt n2; VInt n3; VInt n4; VInt n5; VInt n6; VInt n7;
     VInt n8; VInt n9] => Some (SectionHeader.mk n0 n1 n2 n3 n4 n5 n6 n7 n8 n9)
  | _ => None
  end.

(** The section-header entry that the file holds at [off], when it
    holds all of it. *)
Definition entry_at (bs : bytes) (b : Bitness) (off : Z)
  : option SectionHeader.t :=
  if (0 <=? off) && (off + sh_size b <=? Z.of_nat (List.length bs))
  then decode_entry b (slice bs off (sh_size b))
  else None.

(** The file ends before the end of the [size] bytes that start at
    [off], an offset that the platform can seek to. *)
Definition ends_before (f : fobj) (off size : Z) : Prop :=
  0 <= off <= ssize_max /\ file_size f < off + size.

(** The file after [seek off] and then the read of one entry. *)
Definition visited (b : Bitness) (off : Z) (f : fobj) : fobj :=
  after_read (sh_size b) (set_pos off (log (EvSeek off) f)).

(** The calls that the scan makes to visit [n] entries from index [i]
    on: for each, a seek to the entry and the read of the entry. *)
Fixpoint visits (b : Bitness) (h : Header.t) (i : Z) (n : nat)
  : list io_event :=
  match n with
  | O => []
  | S n' => EvSeek (entry_offset h i) :: EvRead (sh_size b)
              :: visits b h (i + 1) n'
  end.

(** Lines 200 to 217 of [get_rodata_header]: everything before the
    scan, returning what the scan uses. *)
Definition prelude : M (Bitness * Header.t * bytes) :=
  ident <- Ident.parse ;;
  if negb (bytes_eqb (Ident.magic ident) ELF_MAGIC)
  then raise (ParseError (InvalidMagic (Ident.magic ident)))
  else if negb (Endianness_eqb (Ident.data ident) little)
  then raise (ParseError BigEndianUnsupported)
  else if negb (Ident.version ident =? 1)
  then raise (ParseError (UnsupportedVersion (Ident.version ident)))
  else
    header <- Header.parse (Ident.klass ident) ;;
    seek (Header.shoff header
          + Header.shstrndx header * Header.shentsize header) ;;;
    shstr <- SectionHeader.parse (Ident.klass ident) ;;
    seek (SectionHeader.offset shstr) ;;;
    string_table <- read (SectionHeader.size shstr) ;;
    ret (Ident.klass ident, header, string_table).

(** The file in which a computation ends. *)
Definition final {A} (o : outcome A) : fobj :=
  match o with
  | Ret _ f => f
  | Raise _ f => f
  end.

(** A computation that leaves the file and its environment as they
    are. *)
Definition stable {A} (m : M A) : Prop := forall f, same_file f (final (m f)).

(** The entry of index [j] is in the file [bs] and is not named
    .rodata by the string table [st]. *)
Definition other_entry (bs : bytes) (b : Bitness) (h : Header.t) (st : bytes)
    (j : Z) : Prop :=
  exists sh, entry_at bs b (entry_offset h j) = Some sh
             /\ resolved_name st (SectionHeader.name sh) <> rodata.

(** The entry of index [j] is [sh], and it is named .rodata. *)
Definition rodata_entry (bs : bytes) (b : Bitness) (h : Header.t) (st : bytes)
    (j : Z) (sh : SectionHeader.t) : Prop :=
  entry_at bs b (entry_offset h j) = Some sh
  /\ resolved_name st (SectionHeader.name sh) = rodata.

(** *** Sample tables *)

(** Entries named "", ".text" and ".shstrtab". *)
Definition no_rodata_file : fobj :=
  fopen (Samples.table64 0 19 4096 0) no_os_error 4096.

(** Entries named "", ".rodata" and ".shstrtab". *)
Definition rodata_second_file : fobj :=
  fopen (Samples.table64 0 1 4096 0) no_os_error 4096.

(** Entries named ".rodata", ".text" and ".shstrtab". *)
Definition rodata_first_file : fobj :=
  fopen (Samples.table64 1 19 4096 0) no_os_error 4096.

(** *** Sample libraries *)


(** A section .rodata that holds the marker once, inside a user agent. *)
Definition marker_lib : disk_file :=
  Samples.on_disk
    (Samples.elf64 0 1
       (bytes_of "Mozilla/5.0 " ++ marker ++ bytes_of " Safari/537.36")).

(** The marker after another occurrence of the pattern. *)
Definition two_markers_lib : disk_file :=
  Samples.on_disk
    (Samples.elf64 0 1
       (bytes_of "QtWebEngine/5.15.2 Chrome/83.0.4103.122 " ++ marker)).

(** The marker followed by a digit. *)
Definition longer_version_lib : disk_file :=
  Samples.on_disk (Samples.elf64 0 1 (marker ++ bytes_of "5 Safari/537.36")).

(** The marker in a section that does not start on a multiple of the
    allocation granularity. *)
Definition unaligned_lib : disk_file :=
  Samples.on_disk (Samples.packed64 0 1 marker).

Definition claimed_versions : Versions :=
  mkVersions "89.0.4389.90" "89.0.4389.90".

(** The library is parsed up to a section named .rodata, and the bytes
    of that section contain the marker. *)
Definition embeds_marker (d : disk_file) : Prop :=
  exists sh f1 pre post,
    get_rodata_header (path_open d) = Ret sh f1
    /\ slice (df_content d) (SectionHeader.offset sh) (SectionHeader.size sh)
       = pre ++ marker ++ post.

(** *** Libraries on which something other than [ParseError] is raised *)

(** Identification block and 64-bit header only, the section table
    being announced at offset 2^63. *)
Definition far_table_lib : disk_file :=
  Samples.on_disk
    (Samples.ident_bytes 2 1 1 ++ Samples.header64_bytes (2 ^ 63) 64 3 2).

(** A sound table on a device that fails on the sixth call, the read of
    the string table. *)
Definition bad_string_table_lib : disk_file :=
  mkdisk (Samples.table64 0 1 4096 0)
         (fun t => Nat.eqb (List.length t) 6) 4096 sample_memory.

(** The same on a device that fails on the third call, the seek to the
    header of the string table. *)
Definition bad_seek_lib : disk_file :=
  mkdisk (Samples.table64 0 1 4096 0)
         (fun t => Nat.eqb (List.length t) 3) 4096 sample_memory.

(** The same on a device that fails on the second call, the read of
    the primary header, made by [_unpack]. *)
Definition bad_header_read_lib : disk_file :=
  mkdisk (Samples.table64 0 1 4096 0)
         (fun t => Nat.eqb (List.length t) 2) 4096 sample_memory.

(** A section .rodata announced at 4096 with 44 bytes, in a file of 281
    bytes. *)
Definition section_past_end_lib : disk_file :=
  Samples.on_disk (Samples.table64 0 1 4096 44).

(** *** Truncated files *)

(** The identification block is the one of a file that the parser
    goes on reading. *)
Definition accepted_ident (ident : Ident.t) : Prop :=
  Ident.magic ident = ELF_MAGIC
  /\ Ident.data ident = little
  /\ Ident.version ident = 1.

(** The file ends before the end of one of the fixed layouts that
    [get_rodata_header] reads from it: the identification block, the
    primary header, the header of the string table, or an entry that
    the scan reaches. *)
Inductive truncated_mid_header (f : fobj) : Prop :=
| truncated_ident :
    ends_before f (pos f) 16 ->
    truncated_mid_header f
| truncated_header (ident : Ident.t) (f1 : fobj) :
    Ident.parse f = Ret ident f1 ->
    accepted_ident ident ->
    ends_before f (pos f1) (header_size (Ident.klass ident)) ->
    truncated_mid_header f
| truncated_string_table_header (ident : Ident.t) (f1 : fobj)
    (h : Header.t) (f2 : fobj) :
    Ident.parse f = Ret ident f1 ->
    accepted_ident ident ->
    Header.parse (Ident.klass ident) f1 = Ret h f2 ->
    ends_before f (entry_offset h (Header.shstrndx h))
                (sh_size (Ident.klass ident)) ->
    truncated_mid_header f
| truncated_entry (b : Bitness) (h : Header.t) (st : bytes) (f1 : fobj)
    (k : Z) :
    prelude f = Ret (b, h, st) f1 ->
    0 <= k < Header.shnum h ->
    (forall j, 0 <= j < k -> other_entry (content f) b h st j) ->
    ends_before f (entry_offset h k) (sh_size b) ->
    truncated_mid_header f.

(** A sound table cut at 200, in the middle of entry 2, the header of
    the string table. *)
Definition cut_table_lib : disk_file :=
  Samples.on_disk (firstn 200 (Samples.table64 0 1 4096 0)).

(** A table whose entry 0 is the header of the string table, cut at
    150, in the middle of entry 1. *)
Definition cut_entry_lib : disk_file :=
  Samples.on_disk
    (firstn 150
       (Samples.ident_bytes 2 1 1 ++ Samples.header64_bytes 64 64 3 0
          ++ Samples.sh64_bytes 9 0 0)).

(** *** Ranges of the decoded fields *)

(** An unsigned integer of [n] bytes. *)
Definition unsigned (n : nat) (z : Z) : Prop := 0 <= z < 256 ^ Z.of_nat n.

(** Width in bytes of the addresses, offsets and sizes of a class: the
    [I] and [Q] codes of the two layouts. *)
Definition word_bytes (b : Bitness) : nat :=
  match b with x32 => 4%nat | x64 => 8%nat end.

(** All the exceptions that a computation can raise satisfy [P]. *)
Definition raises_only {A} (m : M A) (P : exn -> Prop) : Prop :=
  forall f e f', m f = Raise e f' -> P e.

(** The primary header that [data] holds, by the layout of the class. *)
Definition decode_header (b : Bitness) (data : bytes) : option Header.t :=
  match fields (Header._FORMATS b) data with
  | [VInt n0; VInt n1; VInt n2; VInt n3; VInt n4; VInt n5; VInt n6; VInt n7;
     VInt n8; VInt n9; VInt n10; VInt n11; VInt n12] =>
      Some (Header.mk n0 n1 n2 n3 n4 n5 n6 n7 n8 n9 n10 n11 n12)
  | _ => None
  end.

(** Widths of the values that a format yields, in order. *)
Fixpoint value_widths (fmt : list code) : list nat :=
  match fmt with
  | [] => []
  | x_ _ :: fmt' => value_widths fmt'
  | c :: fmt' => code_size c :: value_widths fmt'
  end.

(** The value fits [n] bytes. *)
Definition value_fits (n : nat) (v : value) : Prop :=
  match v with
  | VInt z => unsigned n z
  | VBytes b => (List.length b <= n)%nat
  end.

(** Run from [f], the computation makes at most [n] calls on the file
    object, added at the end of the trace. *)
Definition calls_from {A} (m : M A) (f : fobj) (n : Z) : Prop :=
  exists t, trace (final (m f)) = trace f ++ t /\ Z.of_nat (List.length t) <= n.

(** The identification that a block of 16 bytes holds. *)
Definition decode_ident (blk : bytes) : option Ident.t :=
  match fields Ident._FORMAT blk with
  | [VBytes magic; VInt klass; VInt data; VInt version; VInt osabi;
     VInt abiversion] =>
      match Bitness_of_value klass, Endianness_of_value data with
      | Some bitness, Some endianness =>
          Some (Ident.mk magic bitness endianness version osabi abiversion)
      | _, _ => None
      end
  | _ => None
  end.

(** The exceptions that reading the headers can raise: a [ParseError]
    other than those of the version search, or what a seek, a read of
    the string table or the device raises. *)
Definition header_exn (e : exn) : Prop :=
  match e with
  | ParseError r => r <> NoMatch /\ r <> FromUnicodeDecodeError
  | OSError | ValueError | OverflowError | MemoryError => True
  | _ => False
  end.

(** The exceptions that the whole parse can raise. *)
Definition pipeline_exn (e : exn) : Prop :=
  match e with
  | ParseError r => r <> FromUnicodeDecodeError
  | OSError | ValueError | OverflowError | MemoryError => True
  | _ => False
  end.

(** The [ParseError]s of a fixed layout that could not be read. *)
Definition layout_exn (e : exn) : Prop :=
  e = ParseError FromOSError \/ e = ParseError FromStructError.

(** A 32-bit primary header with the given section table. *)
Definition header32_bytes (shoff shentsize shnum shstrndx : Z) : bytes :=
  le_bytes 2 3 ++ le_bytes 2 3 ++ le_bytes 4 1 ++ le_bytes 4 0
    ++ le_bytes 4 0 ++ le_bytes 4 shoff ++ le_bytes 4 0 ++ le_bytes 2 52
    ++ le_bytes 2 0 ++ le_bytes 2 0 ++ le_bytes 2 shentsize
    ++ le_bytes 2 shnum ++ le_bytes 2 shstrndx.

(** A 32-bit section-header entry. *)
Definition sh32_bytes (name offset size : Z) : bytes :=
  le_bytes 4 name ++ le_bytes 4 1 ++ le_bytes 4 0 ++ le_bytes 4 0
    ++ le_bytes 4 offset ++ le_bytes 4 size ++ le_bytes 4 0 ++ le_bytes 4 0
    ++ le_bytes 4 1 ++ le_bytes 4 0.

(** A file of the 32-bit class: ident, header, three entries at 52 (of
    names "", .text and .shstrtab) and the string table at 172, announced
    with [size] bytes. *)
Definition table32 (size : Z) : bytes :=
  Samples.ident_bytes 1 1 1 ++ header32_bytes 52 40 3 2
    ++ sh32_bytes 0 0 0
    ++ sh32_bytes 19 0 0
    ++ sh32_bytes 9 172 size
    ++ Samples.strtab.

(** The table with a string table of its true size: no .rodata. *)
Definition text_only32 : fobj :=
  fopen (table32 (Z.of_nat (List.length Samples.strtab))) no_os_error 4096.

(** The table announcing a string table of 2 GiB, on a machine that
    allocates 1 GiB at most. *)
Definition huge_strtab32 : fobj :=
  fopen (table32 (2 ^ 31)) no_os_error 4096.

(** A section .rodata of size 0 announced at offset 0, in a file that
    holds the marker after its string table. *)
Definition empty_section_lib : disk_file :=
  Samples.on_disk (Samples.table64 0 1 0 0 ++ marker).

(** A text file. *)
Definition text_lib : disk_file :=
  Samples.on_disk (bytes_of "#!/bin/sh").



(** ** scripts/importer.py: what [main] asks to import *)

Module Importer.

(** The namespace that [get_args] returns. *)
Record Args := mkArgs {
  browser : string;
  bookmark_output : bool;    (* -b *)
  quickmark_output : bool;   (* -q *)
  search_output : bool;      (* -s *)
  newconfig : bool;          (* --newconfig *)
  search_query : bool;       (* -S *)
  bookmark_query : bool;     (* -B *)
  keyword_query : bool;      (* -K *)
  bookmarks : string
}.

(** [d[k]] on a dict written as its list of items; [None] stands for
    [KeyError]. *)
Fixpoint dict_get {V} (k : string) (d : list (string * V)) : option V :=
  match d with
  | [] => None
  | (k', v) :: d' => if String.eqb k k' then Some v else dict_get k d'
  end.

(** The keys of the dict [bookmark_query] of
    [import_netscape_bookmarks]. *)
Definition bookmark_query_keys : list string :=
  ["search"; "keyword"; "bookmark"]%string.

(** The dict [output_template] of [import_netscape_bookmarks]. *)
Definition output_template : list (string * list (string * string)) :=
  [("ncsearch",
    [("search",
      "config.val.url.searchengines['{tag[shortcuturl]}'] = '{tag[href]}' #{tag.string}")]);
   ("search",
    [("search", "{tag[shortcuturl]} = {tag[href]} #{tag.string}")]);
   ("bookmark",
    [("bookmark", "{tag[href]} {tag.string}");
     ("keyword", "{tag[href]} {tag.string}")]);
   ("quickmark",
    [("bookmark", "{tag.string} {tag[href]}");
     ("keyword", "{tag[shortcuturl]} {tag[href]}")])]%string.

(** [main], up to its call of [import_netscape_bookmarks]: the
    arguments of the call, [None] when the call is not made. *)
Definition main (args : Args) : option (string * list string * string) :=
  let bookmark_types : list string := [] in
  let output_format := EmptyString in
  let '(bookmark_types, output_format) :=
    if search_query args || search_output args then
      (["search"%string],
       if newconfig args then "ncsearch"%string else "search"%string)
    else
      let output_format :=
        if bookmark_output args then "bookmark"%string
        else if quickmark_output args then "quickmark"%string
        else output_format in
      let bookmark_types :=
        if bookmark_query args then bookmark_types ++ ["bookmark"%string]
        else bookmark_types in
      let bookmark_types :=
        if keyword_query args then bookmark_types ++ ["keyword"%string]
        else bookmark_types in
      (bookmark_types, output_format) in
  let bookmark_types :=
    match bookmark_types with
    | [] => ["bookmark"; "keyword"]%string
    | _ => bookmark_types
    end in
  let output_format :=
    if String.eqb output_format "" then "quickmark"%string
    else output_format in
  if existsb (String.eqb (browser args)) ["chromium"; "firefox"; "ie"]%string
  then Some (bookmarks args, bookmark_types, output_format)
  else None.

End Importer.

(** * Properties *)

(** ** Basic facts *)

Lemma byte_eqb_refl (b : byte) : Byte.eqb b b = true.
Proof. now apply Byte.byte_dec_lb. Qed.

Lemma bytes_eqb_eq (a b : bytes) : bytes_eqb a b = true <-> a = b.
Proof.
  revert b; induction a as [|x a IH]; intros [|y b]; simpl;
    try (split; [discriminate | discriminate]); try tauto.
  rewrite andb_true_iff, IH. split.
  - intros [Hxy ->]. now rewrite (Byte.byte_dec_bl _ _ Hxy).
  - intros [= -> ->]. split; [apply byte_eqb_refl | reflexivity].
Qed.

Lemma bytes_eqb_neq (a b : bytes) : bytes_eqb a b = false <-> a <> b.
Proof.
  split.
  - intros H E. apply bytes_eqb_eq in E. congruence.
  - intros H. destruct (bytes_eqb a b) eqn:E; [|reflexivity].
    apply bytes_eqb_eq in E. contradiction.
Qed.

Lemma byte_val_nonneg (b : byte) : 0 <= byte_val b.
Proof. unfold byte_val. lia. Qed.

Lemma le_int_nonneg (bs : bytes) : 0 <= le_int bs.
Proof.
  induction bs as [|b bs IH]; cbn [le_int].
  - apply Z.le_refl.
  - pose proof (byte_val_nonneg b). lia.
Qed.

Lemma same_file_refl f : same_file f f.
Proof. repeat split. Qed.

Lemma same_file_trans f g h : same_file f g -> same_file g h -> same_file f h.
Proof.
  unfold same_file. intros (A & B & C & C') (D & E & F & F').
  repeat split; congruence.
Qed.

Lemma same_file_nominal f f' : same_file f f' -> nominal f -> nominal f'.
Proof. intros (_ & E & _) H t. rewrite E. apply H. Qed.

Lemma same_file_read_limit f f' :
  same_file f f' -> read_limit f' = read_limit f.
Proof. intros (_ & _ & _ & E). unfold read_limit. now rewrite E. Qed.

Lemma same_file_size f f' : same_file f f' -> file_size f' = file_size f.
Proof. intros (E & _). unfold file_size. now rewrite E. Qed.

(** *** Section names *)

Lemma split_until_nul (b : bytes) :
  exists pieces, split x00 b = until_nul b :: pieces.
Proof.
  induction b as [|c b [pieces IH]]; simpl.
  - now exists [].
  - destruct (Byte.eqb c x00).
    + now exists (split x00 b).
    + rewrite IH. now exists pieces.
Qed.

Lemma section_name_eq (string_table : bytes) (name : Z) (f : fobj) :
  section_name string_table name f = Ret (resolved_name string_table name) f.
Proof.
  unfold section_name, resolved_name.
  destruct (split_until_nul (slice_from string_table name)) as [pieces ->].
  reflexivity.
Qed.

Lemma until_nul_prefix (b : bytes) : exists post, b = until_nul b ++ post.
Proof.
  induction b as [|c b [post IH]]; simpl.
  - now exists [].
  - destruct (Byte.eqb c x00).
    + now exists (c :: b).
    + exists post. simpl. now rewrite <- IH.
Qed.

Lemma until_nul_no_nul (b : bytes) : ~ In x00 (until_nul b).
Proof.
  induction b as [|c b IH]; simpl; [tauto|].
  destruct (Byte.eqb c x00) eqn:E; simpl; [tauto|].
  intros [-> | H]; [discriminate | tauto].
Qed.

Lemma slice_from_suffix (b : bytes) (start : Z) :
  exists pre, b = pre ++ slice_from b start.
Proof.
  unfold slice_from. destruct (start <? 0).
  - eexists. symmetry. apply firstn_skipn.
  - eexists. symmetry. apply firstn_skipn.
Qed.

Lemma slice_from_past_end (b : bytes) (start : Z) :
  Z.of_nat (List.length b) <= start -> slice_from b start = [].
Proof.
  intros H. unfold slice_from.
  destruct (start <? 0) eqn:E; [apply Z.ltb_lt in E; lia|].
  apply skipn_all2. lia.
Qed.

(** C10. Name resolution in the section scan is total: for every string
    table and every name offset (of any sign and size) it returns, without
    raising and without touching the file, the bytes of the table from
    the offset up to the first null byte; these bytes are a part of the
    table, and they are the empty string for every offset at or past
    the end of the table. *)
Theorem section_name_total (string_table : bytes) (name : Z) (past : nat)
    (f : fobj) :
  (exists b pre post,
      section_name string_table name f = Ret b f
      /\ b = resolved_name string_table name
      /\ string_table = pre ++ b ++ post
      /\ ~ In x00 b)
  /\ section_name string_table
        (Z.of_nat (List.length string_table) + Z.of_nat past) f = Ret [] f.
Proof.
  split.
  - destruct (slice_from_suffix string_table name) as [pre Hpre].
    destruct (until_nul_prefix (slice_from string_table name)) as [post Hpost].
    exists (resolved_name string_table name), pre, post.
    repeat split.
    + apply section_name_eq.
    + unfold resolved_name. rewrite <- Hpost. exact Hpre.
    + apply until_nul_no_nul.
  - rewrite section_name_eq. unfold resolved_name.
    rewrite slice_from_past_end by lia. reflexivity.
Qed.

Lemma slice_length_le (bs : bytes) (off n : Z) :
  (List.length (slice bs off n) <= Z.to_nat n)%nat.
Proof. unfold slice. rewrite length_firstn. lia. Qed.

Lemma read_ok (size : Z) (f : fobj) :
  0 <= size <= bytes_max ->
  size <= read_limit f ->
  os_error f (trace f ++ [EvRead size]) = false ->
  read size f = Ret (slice (content f) (pos f) size) (after_read size f).
Proof.
  intros Hs Hm Ho. unfold read, after_read.
  change (read_limit (log (EvRead size) f)) with (read_limit f).
  cbn [log trace os_error content pos].
  destruct (bytes_max <? size) eqn:E1; [apply Z.ltb_lt in E1; lia|].
  destruct (read_limit f <? size) eqn:E3; [apply Z.ltb_lt in E3; lia|].
  rewrite Ho.
  destruct (size <? 0) eqn:E2; [apply Z.ltb_lt in E2; lia|].
  reflexivity.
Qed.

Lemma read_MemoryError (size : Z) (f : fobj) :
  size <= bytes_max -> read_limit f < size ->
  read size f = Raise MemoryError (log (EvRead size) f).
Proof.
  intros Hs Hm. unfold read.
  change (read_limit (log (EvRead size) f)) with (read_limit f).
  destruct (bytes_max <? size) eqn:E1; [apply Z.ltb_lt in E1; lia|].
  destruct (read_limit f <? size) eqn:E3; [reflexivity|].
  apply Z.ltb_ge in E3. lia.
Qed.

Lemma calcsize_small (fmt : list code) :
  In fmt [Ident._FORMAT; Header._FORMATS x32; Header._FORMATS x64;
          SectionHeader._FORMATS x32; SectionHeader._FORMATS x64] ->
  0 <= Z.of_nat (calcsize fmt) <= 64.
Proof.
  intros H. simpl in H.
  repeat (destruct H as [<- | H]; [vm_compute; split; discriminate|]).
  contradiction.
Qed.

(** What [_unpack] does, by cases on the environment and on the number
    of bytes that the file still holds. *)
Lemma _unpack_run (fmt : list code) (f : fobj) :
  0 <= Z.of_nat (calcsize fmt) <= 64 ->
  let size := Z.of_nat (calcsize fmt) in
  let data := slice (content f) (pos f) size in
  _unpack fmt f =
    if os_error f (trace f ++ [EvRead size])
    then Raise (ParseError FromOSError) (log (EvRead size) f)
    else if Nat.eqb (List.length data) (calcsize fmt)
         then Ret (fields fmt data) (after_read size f)
         else Raise (ParseError FromStructError) (after_read size f).
Proof.
  intros Hs size data. unfold _unpack, bind, try_except.
  assert (Hb : 0 <= size <= bytes_max)
    by (subst size; unfold bytes_max, ssize_max; lia).
  assert (Hm : size <= read_limit f)
    by (subst size; unfold read_limit; lia).
  destruct (os_error f (trace f ++ [EvRead size])) eqn:Ho.
  - unfold read.
    change (read_limit (log (EvRead (Z.of_nat (calcsize fmt))) f))
      with (read_limit f).
    cbn [log trace os_error content pos]. fold size.
    destruct (bytes_max <? size) eqn:E1; [apply Z.ltb_lt in E1; lia|].
    destruct (read_limit f <? size) eqn:E3; [apply Z.ltb_lt in E3; lia|].
    rewrite Ho. reflexivity.
  - fold size. rewrite (read_ok size f Hb Hm Ho). fold data.
    unfold struct_unpack, unpack.
    destruct (Nat.eqb (List.length data) (calcsize fmt)); reflexivity.
Qed.

Lemma le_int_one (b : byte) : le_int [b] = byte_val b.
Proof. cbn [le_int]. lia. Qed.

Lemma ident_block_length (f : fobj) : (List.length (ident_block f) <= 16)%nat.
Proof. apply (slice_length_le (content f) (pos f) 16). Qed.

(** What [get_rodata_header] does on an identification block of full
    length that violates one of the conditions. *)
Lemma ident_rejected (f : fobj) (r : reason) :
  os_error f (trace f ++ [EvRead 16]) = false ->
  List.length (ident_block f) = 16%nat ->
  first_violation tested_order (ident_block f) = Some r ->
  get_rodata_header f = Raise (ParseError r) (after_read 16 f).
Proof.
  intros Ho Hlen Hv.
  unfold get_rodata_header, Ident.parse, bind.
  rewrite (_unpack_run Ident._FORMAT f) by (apply calcsize_small; simpl; auto).
  change (Z.of_nat (calcsize Ident._FORMAT)) with 16.
  rewrite Ho. fold (ident_block f) in *. rewrite Hlen.
  change (Nat.eqb 16 (calcsize Ident._FORMAT)) with true. cbv iota.
  revert Hv Hlen. generalize (ident_block f) as blk. intros blk Hv Hlen.
  do 16 (destruct blk as [|? blk]; [discriminate Hlen|]).
  destruct blk; [clear Hlen|discriminate Hlen].
  unfold tested_order, first_violation, check_short, check_class,
    check_byte_order, check_magic, check_big_endian, check_version,
    ident_byte in Hv.
  cbn [List.length Nat.ltb Nat.leb nth firstn] in Hv.
  cbn [fields Ident._FORMAT code_size firstn skipn].
  rewrite !le_int_one.
  destruct (Bitness_of_value (byte_val b3)) as [bitness|]; unfold raise;
    [|congruence].
  destruct (Endianness_of_value (byte_val b4)) as [endianness|] eqn:He;
    [|congruence].
  unfold ret. cbn [Ident.magic Ident.data Ident.version].
  destruct (bytes_eqb [b; b0; b1; b2] ELF_MAGIC); cbn [negb]; [|congruence].
  unfold Endianness_of_value in He.
  destruct (byte_val b4 =? 1) eqn:E1.
  - apply Z.eqb_eq in E1. rewrite E1 in Hv. cbn [Z.eqb Pos.eqb] in Hv.
    injection He as <-. cbn [Endianness_eqb negb].
    destruct (byte_val b5 =? 1); cbn [negb]; congruence.
  - destruct (byte_val b4 =? 2); [|discriminate He].
    injection He as <-. cbn [Endianness_eqb negb]. congruence.
Qed.

(** Conversely, a block of full length that violates none of the
    conditions is accepted: the parser goes on to the primary header. *)
Lemma ident_accepted (f : fobj) :
  os_error f (trace f ++ [EvRead 16]) = false ->
  first_violation tested_order (ident_block f) = None ->
  exists ident,
    Ident.parse f = Ret ident (after_read 16 f)
    /\ Ident.magic ident = ELF_MAGIC
    /\ Ident.data ident = little
    /\ Ident.version ident = 1.
Proof.
  intros Ho Hv.
  assert (Hlen : List.length (ident_block f) = 16%nat).
  { pose proof (ident_block_length f) as Hle.
    unfold tested_order, first_violation, check_short in Hv.
    destruct (Nat.ltb _ 16) eqn:E; [discriminate Hv|].
    apply Nat.ltb_ge in E. lia. }
  unfold Ident.parse, bind.
  rewrite (_unpack_run Ident._FORMAT f) by (apply calcsize_small; simpl; auto).
  change (Z.of_nat (calcsize Ident._FORMAT)) with 16.
  rewrite Ho. fold (ident_block f) in *. rewrite Hlen.
  change (Nat.eqb 16 (calcsize Ident._FORMAT)) with true. cbv iota.
  revert Hv Hlen. generalize (ident_block f) as blk. intros blk Hv Hlen.
  do 16 (destruct blk as [|? blk]; [discriminate Hlen|]).
  destruct blk; [clear Hlen|discriminate Hlen].
  unfold tested_order, first_violation, check_short, check_class,
    check_byte_order, check_magic, check_big_endian, check_version,
    ident_byte in Hv.
  cbn [List.length Nat.ltb Nat.leb nth firstn] in Hv.
  cbn [fields Ident._FORMAT code_size firstn skipn].
  rewrite !le_int_one.
  destruct (Bitness_of_value (byte_val b3)) as [bitness|]; [|discriminate Hv].
  destruct (Endianness_of_value (byte_val b4)) as [endianness|] eqn:He;
    [|discriminate Hv].
  destruct (bytes_eqb [b; b0; b1; b2] ELF_MAGIC) eqn:Em; [|discriminate Hv].
  destruct (byte_val b4 =? 2) eqn:E2; [discriminate Hv|].
  destruct (byte_val b5 =? 1) eqn:E5; [|discriminate Hv].
  unfold Endianness_of_value in He. rewrite E2 in He.
  destruct (byte_val b4 =? 1); [|discriminate He]. injection He as <-.
  eexists. split; [reflexivity|]. cbn.
  apply bytes_eqb_eq in Em. apply Z.eqb_eq in E5. auto.
Qed.

(** C4, as the code has it.  The identification block is validated in
    this order, and the first violated condition determines the
    [ParseError]: (1) fewer than 16 bytes read, (2) class byte not 1 or
    2, (3) byte-order byte not 1 or 2, (4) magic different from the
    signature, (5) byte order big-endian, (6) format version not 1.
    Nothing but the 16-byte read has been done on the file by then. *)
Theorem ident_validation_order (f : fobj) (r : reason) :
  os_error f (trace f ++ [EvRead 16]) = false ->
  first_violation tested_order (ident_block f) = Some r ->
  exists f',
    get_rodata_header f = Raise (ParseError r) f'
    /\ trace f' = trace f ++ [EvRead 16].
Proof.
  intros Ho Hv. exists (after_read 16 f). split; [|reflexivity].
  destruct (Nat.eqb (List.length (ident_block f)) 16) eqn:El.
  - apply Nat.eqb_eq in El. now apply ident_rejected.
  - apply Nat.eqb_neq in El. pose proof (ident_block_length f) as Hle.
    assert (Hlt : Nat.ltb (List.length (ident_block f)) 16 = true)
      by (apply Nat.ltb_lt; lia).
    unfold tested_order, first_violation, check_short in Hv.
    rewrite Hlt in Hv. injection Hv as <-.
    unfold get_rodata_header, Ident.parse, bind.
    rewrite (_unpack_run Ident._FORMAT f)
      by (apply calcsize_small; simpl; auto).
    change (Z.of_nat (calcsize Ident._FORMAT)) with 16.
    rewrite Ho. fold (ident_block f).
    change (calcsize Ident._FORMAT) with 16%nat.
    apply Nat.eqb_neq in El. rewrite El. reflexivity.
Qed.

Lemma ident_validation_order_witness :
  exists f',
    get_rodata_header (fopen bad_magic_bad_class no_os_error 4096)
      = Raise (ParseError (InvalidBitness 7)) f'
    /\ trace f' = [EvRead 16].
Proof.
  apply (ident_validation_order (fopen bad_magic_bad_class no_os_error 4096)
           (InvalidBitness 7)); reflexivity.
Defined.

(** C4, as the specification states it, fails: on an identification
    block whose magic is wrong and whose class byte is unrecognized, the
    specified order makes the magic the first violation, and the parser
    reports the class. *)
Lemma specified_order_refuted :
  first_violation specified_order bad_magic_bad_class
    = Some (InvalidMagic [x7f; x45; x4c; x47])
  /\ get_rodata_header (fopen bad_magic_bad_class no_os_error 4096)
     = Raise (ParseError (InvalidBitness 7))
         (after_read 16 (fopen bad_magic_bad_class no_os_error 4096))
  /\ ~ (forall f r,
          os_error f (trace f ++ [EvRead 16]) = false ->
          first_violation specified_order (ident_block f) = Some r ->
          exists f', get_rodata_header f = Raise (ParseError r) f').
Proof.
  split; [reflexivity|]. split; [reflexivity|].
  intros H.
  destruct (H (fopen bad_magic_bad_class no_os_error 4096)
              (InvalidMagic [x7f; x45; x4c; x47]) eq_refl eq_refl)
    as [f' Hf'].
  vm_compute in Hf'. discriminate Hf'.
Qed.

(** [Ident.parse] returns only after one read of 16 bytes. *)
Lemma Ident_parse_ret (f f1 : fobj) (ident : Ident.t) :
  Ident.parse f = Ret ident f1 -> f1 = after_read 16 f.
Proof.
  unfold Ident.parse, bind.
  rewrite (_unpack_run Ident._FORMAT f) by (apply calcsize_small; simpl; auto).
  change (Z.of_nat (calcsize Ident._FORMAT)) with 16.
  destruct (os_error f (trace f ++ [EvRead 16])); [discriminate|].
  destruct (Nat.eqb _ _); [|discriminate].
  destruct (fields _ _) as [|[m|?] [|[?|k] [|[?|d] [|[?|v] [|[?|o] [|[?|a]
    [|? ?]]]]]]]; try discriminate.
  destruct (Bitness_of_value k); [|discriminate].
  destruct (Endianness_of_value d); [|discriminate].
  unfold ret. now intros [= _ <-].
Qed.

(** C9. When the identification block decodes ([Ident.parse] returns)
    and its byte order is big-endian, [get_rodata_header] raises a
    [ParseError] of the format kind, and the 16-byte read of the block
    is the only call made on the file: no header and no section header
    is read.  With the right magic the error is the explicit
    "Big endian is unsupported". *)
Theorem big_endian_rejected (f f1 : fobj) (ident : Ident.t) :
  Ident.parse f = Ret ident f1 ->
  Ident.data ident = big ->
  exists r,
    get_rodata_header f = Raise (ParseError r) f1
    /\ kind_of r = FormatFailure
    /\ (r = BigEndianUnsupported \/ r = InvalidMagic (Ident.magic ident))
    /\ (Ident.magic ident = ELF_MAGIC -> r = BigEndianUnsupported)
    /\ trace f1 = trace f ++ [EvRead 16].
Proof.
  intros Hp Hd. pose proof (Ident_parse_ret _ _ _ Hp) as ->.
  unfold get_rodata_header, bind. rewrite Hp.
  destruct (bytes_eqb (Ident.magic ident) ELF_MAGIC) eqn:Em; cbn [negb].
  - rewrite Hd. cbn [Endianness_eqb negb].
    exists BigEndianUnsupported. repeat split; auto.
  - exists (InvalidMagic (Ident.magic ident)). repeat split; auto.
    intros E. apply bytes_eqb_eq in E. congruence.
Qed.

Lemma big_endian_rejected_witness :
  exists r,
    get_rodata_header (fopen big_endian_ident no_os_error 4096)
      = Raise (ParseError r)
          (after_read 16 (fopen big_endian_ident no_os_error 4096))
    /\ kind_of r = FormatFailure
    /\ (r = BigEndianUnsupported \/ r = InvalidMagic ELF_MAGIC)
    /\ (ELF_MAGIC = ELF_MAGIC -> r = BigEndianUnsupported)
    /\ [EvRead 16] = [EvRead 16].
Proof.
  apply (big_endian_rejected (fopen big_endian_ident no_os_error 4096)
           (after_read 16 (fopen big_endian_ident no_os_error 4096))
           (Ident.mk ELF_MAGIC x64 big 1 0 0)); reflexivity.
Defined.

(** ** The regular expression *)

Lemma strip_prefix_app (p r : bytes) : strip_prefix p (p ++ r) = Some r.
Proof.
  induction p as [|a p IH]; simpl; [now destruct r|].
  now rewrite byte_eqb_refl.
Qed.

Lemma strip_prefix_inv (p s r : bytes) :
  strip_prefix p s = Some r -> s = p ++ r.
Proof.
  revert s; induction p as [|a p IH]; intros s H.
  - destruct s; simpl in H; now injection H as <-.
  - destruct s as [|c s]; simpl in H; [discriminate|].
    destruct (Byte.eqb a c) eqn:E; [|discriminate].
    apply Byte.byte_dec_bl in E. subst c. simpl. f_equal. now apply IH.
Qed.

Lemma run_after_run (cls : byte -> bool) (s : bytes) :
  s = run cls s ++ after_run cls s.
Proof.
  induction s as [|c s IH]; simpl; [reflexivity|].
  destruct (cls c); simpl; [now rewrite <- IH | reflexivity].
Qed.

Lemma run_all (cls : byte -> bool) (s : bytes) :
  forallb cls (run cls s) = true.
Proof.
  induction s as [|c s IH]; simpl; [reflexivity|].
  destruct (cls c) eqn:E; simpl; [now rewrite E | reflexivity].
Qed.

Lemma run_app (cls : byte -> bool) (u t : bytes) :
  forallb cls u = true ->
  run cls (u ++ t) = u ++ run cls t
  /\ after_run cls (u ++ t) = after_run cls t.
Proof.
  induction u as [|c u IH]; simpl; [auto|].
  intros H. apply andb_true_iff in H as [-> Hu].
  destruct (IH Hu) as [-> ->]. auto.
Qed.

Lemma consumed_run (cls : byte -> bool) (s : bytes) :
  consumed s (after_run cls s) = run cls s.
Proof.
  unfold consumed. rewrite (run_after_run cls s) at 1 3.
  rewrite length_app, Nat.add_sub.
  rewrite firstn_app, firstn_all, Nat.sub_diag. simpl. apply app_nil_r.
Qed.

(** Backtracking never helps when the rest of the pattern cannot start
    with a character of the class ... *)
Lemma star_stops {R} (cls : byte -> bool) (k : bytes -> option R) (s : bytes) :
  (forall c t, cls c = true -> k (c :: t) = None) ->
  star cls s k = k (after_run cls s).
Proof.
  intros Hk. induction s as [|c s IH]; simpl; [reflexivity|].
  destruct (cls c) eqn:E; [|reflexivity].
  rewrite IH. destruct (k (after_run cls s)) eqn:Ek; [reflexivity|].
  now apply Hk.
Qed.

(** ... nor when the rest of the pattern always matches. *)
Lemma star_total {R} (cls : byte -> bool) (k : bytes -> option R) (s : bytes) :
  (forall t, k t <> None) ->
  star cls s k = k (after_run cls s).
Proof.
  intros Hk. induction s as [|c s IH]; simpl; [reflexivity|].
  destruct (cls c) eqn:E; [|reflexivity].
  rewrite IH. destruct (k (after_run cls s)) eqn:Ek; [reflexivity|].
  now apply Hk in Ek.
Qed.

Lemma version_char_not_space (c : byte) :
  version_char c = true -> Byte.eqb x20 c = false.
Proof. destruct c; vm_compute; congruence. Qed.

Lemma version_char_ascii (c : byte) :
  version_char c = true -> (byte_val c <? 128) = true.
Proof. destruct c; vm_compute; congruence. Qed.

(** The backtracking matcher reads the marker greedily. *)
Lemma match_here_pattern (s : bytes) :
  match_here pattern s
  = match marker_at s with
    | Some (v1, v2) => Some [v1; v2]
    | None => None
    end.
Proof.
  unfold match_here, pattern, marker_at. cbn [rmatch]. fold QT. fold CH.
  destruct (strip_prefix QT s) as [r1|]; [|reflexivity].
  destruct r1 as [|c s1]; [reflexivity|].
  cbn [run after_run]. destruct (version_char c) eqn:Ec; [|reflexivity].
  rewrite star_stops.
  2:{ intros c' t Hc'. change CH with (x20 :: bytes_of "Chrome/").
      cbn [strip_prefix]. now rewrite (version_char_not_space c' Hc'). }
  assert (Hc1 : consumed (c :: s1) (after_run version_char s1)
                = c :: run version_char s1).
  { pose proof (consumed_run version_char (c :: s1)) as H.
    cbn [run after_run] in H. now rewrite Ec in H. }
  rewrite Hc1.
  destruct (strip_prefix CH (after_run version_char s1)) as [r2|];
    [|reflexivity].
  destruct r2 as [|c2 s2]; [reflexivity|].
  cbn [run]. destruct (version_char c2) eqn:Ec2; [|reflexivity].
  rewrite star_total by discriminate.
  pose proof (consumed_run version_char (c2 :: s2)) as H.
  cbn [run after_run] in H. rewrite Ec2 in H. rewrite H. reflexivity.
Qed.

Lemma marker_at_sound (s v1 v2 : bytes) :
  marker_at s = Some (v1, v2) -> occurs_at s 0 v1 v2.
Proof.
  unfold marker_at.
  destruct (strip_prefix QT s) as [r1|] eqn:E1; [|discriminate].
  destruct (run version_char r1) as [|a1 w1] eqn:Ev1; [discriminate|].
  destruct (strip_prefix CH (after_run version_char r1)) as [r2|] eqn:E2;
    [|discriminate].
  destruct (run version_char r2) as [|a2 w2] eqn:Ev2; [discriminate|].
  intros [= <- <-].
  apply strip_prefix_inv in E1, E2.
  repeat split; try discriminate.
  - rewrite <- Ev1. apply run_all.
  - rewrite <- Ev2. apply run_all.
  - exists (after_run version_char r2). cbn [skipn].
    rewrite <- Ev2, <- (run_after_run version_char r2), <- E2, <- Ev1.
    rewrite E1 at 1. f_equal. apply run_after_run.
Qed.

Lemma marker_at_app (u1 u2 rest : bytes) :
  is_version u1 -> is_version u2 ->
  marker_at (QT ++ u1 ++ CH ++ u2 ++ rest)
  = Some (u1, u2 ++ run version_char rest).
Proof.
  intros [Hn1 Hv1] [Hn2 Hv2].
  unfold marker_at. rewrite strip_prefix_app.
  destruct (run_app version_char u1 (CH ++ u2 ++ rest) Hv1) as [-> ->].
  change (run version_char (CH ++ u2 ++ rest)) with (@nil byte).
  change (after_run version_char (CH ++ u2 ++ rest)) with (CH ++ u2 ++ rest).
  rewrite app_nil_r, strip_prefix_app.
  destruct (run_app version_char u2 rest Hv2) as [-> _].
  destruct u1 as [|a1 u1]; [contradiction|].
  destruct u2 as [|a2 u2]; [contradiction|]. reflexivity.
Qed.



Lemma re_search_leftmost (r : regex) (s : bytes) (i : nat) (caps : list bytes) :
  match_here r (skipn i s) = Some caps ->
  exists j caps',
    (j <= i)%nat
    /\ re_search r s = Some caps'
    /\ match_here r (skipn j s) = Some caps'
    /\ forall j', (j' < j)%nat -> match_here r (skipn j' s) = None.
Proof.
  revert i; induction s as [|c s IH]; intros i H.
  - rewrite skipn_nil in H. exists 0%nat, caps. simpl. rewrite H.
    repeat split; auto; lia.
  - destruct (match_here r (c :: s)) as [caps0|] eqn:E0.
    + exists 0%nat, caps0. simpl. rewrite E0. repeat split; auto; lia.
    + destruct i as [|i]; [simpl in H; congruence|]. simpl in H.
      destruct (IH i H) as (j & caps' & Hj & Hs & Hm & Hl).
      exists (S j), caps'. simpl. rewrite E0. repeat split; auto; [lia|].
      intros [|j'] Hj'; [exact E0|]. simpl. apply Hl. lia.
Qed.

Lemma occurs_at_skipn (region : bytes) (i : nat) (v1 v2 : bytes) :
  occurs_at region i v1 v2 <-> occurs_at (skipn i region) 0 v1 v2.
Proof. unfold occurs_at. cbn [skipn]. tauto. Qed.



Lemma decode_ascii_version (v : bytes) (f : fobj) :
  forallb version_char v = true ->
  decode_ascii v f = Ret (string_of_list_byte v) f.
Proof.
  intros H. unfold decode_ascii.
  assert (E : forallb (fun c => byte_val c <? 128) v = true).
  { apply forallb_forall. intros c Hc. apply version_char_ascii.
    now apply (proj1 (forallb_forall _ _) H). }
  now rewrite E.
Qed.

Lemma find_versions_no_match (region : bytes) (f : fobj) :
  re_search pattern region = None ->
  find_versions region f = Raise (ParseError NoMatch) f.
Proof. intros H. unfold find_versions. now rewrite H. Qed.

Lemma find_versions_match (region w1 w2 : bytes) (f : fobj) :
  re_search pattern region = Some [w1; w2] ->
  forallb version_char w1 = true ->
  forallb version_char w2 = true ->
  find_versions region f
  = Ret (mkVersions (string_of_list_byte w1) (string_of_list_byte w2)) f.
Proof.
  intros H H1 H2. unfold find_versions. rewrite H.
  unfold try_except, bind, group. cbn [nth_error Nat.sub]. unfold ret.
  now rewrite (decode_ascii_version w1 f H1), (decode_ascii_version w2 f H2).
Qed.

Lemma _parse_from_path_located (f f1 f2 : fobj) (sh : SectionHeader.t)
    (region : bytes) :
  get_rodata_header f = Ret sh f1 ->
  mmap (SectionHeader.size sh) (SectionHeader.offset sh) f1 = Ret region f2 ->
  _parse_from_path f = find_versions region f2.
Proof.
  intros H1 H2. unfold _parse_from_path, bind, try_except.
  now rewrite H1, H2.
Qed.


(** ** Computations keep the file *)

Lemma stable_ret {A} (a : A) : stable (ret a).
Proof. intros f. apply same_file_refl. Qed.

Lemma stable_raise {A} (e : exn) : stable (@raise A e).
Proof. intros f. apply same_file_refl. Qed.

Lemma stable_bind {A B} (m : M A) (k : A -> M B) :
  stable m -> (forall a, stable (k a)) -> stable (bind m k).
Proof.
  intros Hm Hk f. unfold bind. specialize (Hm f).
  destruct (m f) as [a f'|e f']; simpl in Hm; [|exact Hm].
  eapply same_file_trans; [exact Hm | apply Hk].
Qed.

Lemma stable_try_except {A} (m : M A) handles (h : exn -> M A) :
  stable m -> (forall e, stable (h e)) -> stable (try_except m handles h).
Proof.
  intros Hm Hh f. unfold try_except. specialize (Hm f).
  destruct (m f) as [a f'|e f']; simpl in Hm; [exact Hm|].
  destruct (handles e); [|exact Hm].
  eapply same_file_trans; [exact Hm | apply Hh].
Qed.

Lemma stable_read (size : Z) : stable (read size).
Proof.
  intros f. unfold read.
  repeat match goal with
         | |- context [if ?c then _ else _] => destruct c
         end; repeat split.
Qed.

Lemma stable_seek (offset : Z) : stable (seek offset).
Proof.
  intros f. unfold seek.
  repeat match goal with
         | |- context [if ?c then _ else _] => destruct c
         end; repeat split.
Qed.

Lemma stable_mmap (length offset : Z) : stable (mmap length offset).
Proof.
  intros f. unfold mmap.
  repeat match goal with
         | |- context [if ?c then _ else _] => destruct c
         end; repeat split.
Qed.

Create HintDb stable.
#[local] Hint Resolve stable_ret stable_raise stable_read stable_seek
  stable_mmap : stable.
#[local] Hint Extern 2 (stable (bind _ _)) =>
  apply stable_bind; [|intros ?] : stable.
#[local] Hint Extern 2 (stable (try_except _ _ _)) =>
  apply stable_try_except; [|intros ?] : stable.
#[local] Hint Extern 3 (stable (match ?x with _ => _ end)) =>
  destruct x : stable.

Lemma stable__unpack (fmt : list code) : stable (_unpack fmt).
Proof. unfold _unpack, struct_unpack. auto 10 with stable. Qed.
#[local] Hint Resolve stable__unpack : stable.

Lemma stable_Ident_parse : stable Ident.parse.
Proof.
  unfold Ident.parse. apply stable_bind; [auto with stable|]. intros vals.
  repeat match goal with
         | |- stable (match ?x with _ => _ end) => destruct x
         end; auto with stable.
Qed.

Lemma stable_Header_parse (b : Bitness) : stable (Header.parse b).
Proof.
  unfold Header.parse. apply stable_bind; [auto with stable|]. intros vals.
  repeat match goal with
         | |- stable (match ?x with _ => _ end) => destruct x
         end; auto with stable.
Qed.

Lemma stable_SectionHeader_parse (b : Bitness) : stable (SectionHeader.parse b).
Proof.
  unfold SectionHeader.parse. apply stable_bind; [auto with stable|].
  intros vals.
  repeat match goal with
         | |- stable (match ?x with _ => _ end) => destruct x
         end; auto with stable.
Qed.
#[local] Hint Resolve stable_Ident_parse stable_Header_parse
  stable_SectionHeader_parse : stable.

Lemma stable_prelude : stable prelude.
Proof. unfold prelude. auto 20 with stable. Qed.

Lemma prelude_same_file (f f1 : fobj) p :
  prelude f = Ret p f1 -> same_file f f1.
Proof. intros H. pose proof (stable_prelude f) as S. now rewrite H in S. Qed.

(** ** The section scan *)

Lemma get_rodata_header_prelude (f : fobj) :
  get_rodata_header f
  = match prelude f with
    | Ret (b, h, st) f1 => scan b h st (Z.to_nat (Header.shnum h)) 0 f1
    | Raise e f1 => Raise e f1
    end.
Proof.
  unfold get_rodata_header, prelude, bind.
  destruct (Ident.parse f) as [ident f1|]; [|reflexivity].
  destruct (negb _); [reflexivity|].
  destruct (negb _); [reflexivity|].
  destruct (negb _); [reflexivity|].
  destruct (Header.parse _ f1) as [h f2|]; [|reflexivity].
  destruct (seek _ f2) as [? f3|]; [|reflexivity].
  destruct (SectionHeader.parse _ f3) as [shstr f4|]; [|reflexivity].
  destruct (seek _ f4) as [? f5|]; [|reflexivity].
  destruct (read _ f5) as [st f6|]; reflexivity.
Qed.

Lemma slice_length (bs : bytes) (off n : Z) :
  0 <= off -> 0 < n ->
  (Z.of_nat (List.length (slice bs off n)) = n
   <-> off + n <= Z.of_nat (List.length bs)).
Proof.
  intros Ho Hn. unfold slice. rewrite length_firstn, length_skipn. lia.
Qed.

Lemma sh_size_pos (b : Bitness) : 0 < sh_size b <= ssize_max.
Proof. destruct b; vm_compute; split; congruence. Qed.

Lemma seek_ok (off : Z) (f : fobj) :
  nominal f -> 0 <= off <= ssize_max ->
  seek off f = Ret off (set_pos off (log (EvSeek off) f)).
Proof.
  intros Hn Ho. unfold seek. cbn [log trace os_error].
  destruct (ssize_max <? off) eqn:E1; [apply Z.ltb_lt in E1; lia|].
  destruct (off <? 0) eqn:E2; [apply Z.ltb_lt in E2; lia|].
  now rewrite Hn.
Qed.

Lemma SectionHeader_parse_run (b : Bitness) (f : fobj) :
  nominal f -> 0 <= pos f ->
  SectionHeader.parse b f
  = match entry_at (content f) b (pos f) with
    | Some sh => Ret sh (after_read (sh_size b) f)
    | None => Raise (ParseError FromStructError) (after_read (sh_size b) f)
    end.
Proof.
  intros Hn Hp. unfold SectionHeader.parse, bind.
  rewrite _unpack_run by (destruct b; apply calcsize_small; simpl; tauto).
  rewrite Hn. fold (sh_size b). unfold entry_at.
  pose proof (sh_size_pos b) as Hs.
  pose proof (slice_length (content f) (pos f) (sh_size b) Hp ltac:(lia)) as Hl.
  destruct (Nat.eqb _ _) eqn:El.
  - apply Nat.eqb_eq in El.
    assert (E : pos f + sh_size b <= Z.of_nat (List.length (content f))).
    { apply Hl. rewrite El. reflexivity. }
    apply Z.leb_le in E. rewrite E. apply Z.leb_le in Hp. rewrite Hp.
    cbn [andb]. unfold decode_entry. destruct b; reflexivity.
  - apply Nat.eqb_neq in El.
    destruct (pos f + sh_size b <=? _) eqn:E.
    + apply Z.leb_le in E. apply Hl in E. unfold sh_size in *. lia.
    + rewrite andb_false_r. reflexivity.
Qed.

(** One visit of the scan: a seek to the entry and the read of it. *)
Lemma visit_run {A} (b : Bitness) (off : Z) (f : fobj)
    (k : SectionHeader.t -> M A) :
  nominal f -> 0 <= off <= ssize_max ->
  (seek off ;;; sh <- SectionHeader.parse b ;; k sh) f
  = match entry_at (content f) b off with
    | Some sh => k sh (visited b off f)
    | None => Raise (ParseError FromStructError) (visited b off f)
    end.
Proof.
  intros Hn Ho. unfold bind. rewrite seek_ok by assumption.
  rewrite SectionHeader_parse_run; [|exact Hn | cbn; lia].
  cbn [content set_pos log pos]. fold (visited b off f).
  now destruct (entry_at (content f) b off).
Qed.

Lemma entry_at_range (bs : bytes) (b : Bitness) (off : Z) sh :
  entry_at bs b off = Some sh ->
  0 <= off /\ off + sh_size b <= Z.of_nat (List.length bs).
Proof.
  unfold entry_at. destruct (0 <=? off) eqn:E1; [|discriminate].
  destruct (off + sh_size b <=? _) eqn:E2; [|discriminate].
  apply Z.leb_le in E1, E2. auto.
Qed.

Lemma visited_nominal b off f : nominal f -> nominal (visited b off f).
Proof. intros H t. apply H. Qed.

Lemma visited_trace b off f :
  trace (visited b off f) = trace f ++ [EvSeek off; EvRead (sh_size b)].
Proof. cbn. now rewrite <- app_assoc. Qed.

Section Scan.

Variables (b : Bitness) (h : Header.t) (st : bytes) (bs : bytes).

Hypothesis Hsize : Z.of_nat (List.length bs) <= ssize_max.

Lemma scan_step (n : nat) (i : Z) (f : fobj) :
  nominal f -> content f = bs -> other_entry bs b h st i ->
  scan b h st (S n) i f
  = scan b h st n (i + 1) (visited b (entry_offset h i) f).
Proof.
  intros Hn Hc (sh & He & Hname). cbn [scan].
  pose proof (entry_at_range _ _ _ _ He) as Hr.
  pose proof (sh_size_pos b) as Hs.
  fold (entry_offset h i). rewrite visit_run by (auto; lia).
  rewrite Hc, He. unfold bind. rewrite section_name_eq.
  apply bytes_eqb_neq in Hname. now rewrite Hname.
Qed.

Lemma scan_found (n : nat) (i : Z) (f : fobj) (sh : SectionHeader.t) :
  nominal f -> content f = bs -> rodata_entry bs b h st i sh ->
  scan b h st (S n) i f = Ret sh (visited b (entry_offset h i) f).
Proof.
  intros Hn Hc (He & Hname). cbn [scan].
  pose proof (entry_at_range _ _ _ _ He) as Hr.
  pose proof (sh_size_pos b) as Hs.
  fold (entry_offset h i). rewrite visit_run by (auto; lia).
  rewrite Hc, He. unfold bind. rewrite section_name_eq.
  apply bytes_eqb_eq in Hname. now rewrite Hname.
Qed.

Lemma scan_short (n : nat) (i : Z) (f : fobj) :
  nominal f -> content f = bs ->
  0 <= entry_offset h i <= ssize_max ->
  entry_at bs b (entry_offset h i) = None ->
  scan b h st (S n) i f
  = Raise (ParseError FromStructError) (visited b (entry_offset h i) f).
Proof.
  intros Hn Hc Hr He. cbn [scan].
  fold (entry_offset h i). rewrite visit_run by auto. now rewrite Hc, He.
Qed.

(** The scan over [k] entries that are not named .rodata, followed by
    [n] more iterations. *)
Lemma scan_skip (k n : nat) (i : Z) (f : fobj) :
  nominal f -> content f = bs ->
  (forall j, i <= j < i + Z.of_nat k -> other_entry bs b h st j) ->
  exists f',
    scan b h st (k + n) i f = scan b h st n (i + Z.of_nat k) f'
    /\ nominal f' /\ content f' = bs
    /\ trace f' = trace f ++ visits b h i k.
Proof.
  revert i f; induction k as [|k IH]; intros i f Hn Hc Ho.
  - exists f. rewrite Z.add_0_r, app_nil_r. auto.
  - cbn [Nat.add]. rewrite scan_step by (auto; apply Ho; lia).
    destruct (IH (i + 1) (visited b (entry_offset h i) f)) as (f' & E & N & C & T).
    + now apply visited_nominal.
    + exact Hc.
    + intros j Hj. apply Ho. lia.
    + exists f'. rewrite E. repeat split; auto.
      * f_equal. lia.
      * rewrite T, visited_trace, <- app_assoc. reflexivity.
Qed.

End Scan.

Lemma visits_snoc (b : Bitness) (h : Header.t) (i : Z) (n : nat) :
  visits b h i (S n)
  = visits b h i n
      ++ [EvSeek (entry_offset h (i + Z.of_nat n)); EvRead (sh_size b)].
Proof.
  revert i; induction n as [|n IH]; intros i.
  - cbn [visits app Z.of_nat]. now rewrite Z.add_0_r.
  - change (visits b h i (S (S n)))
      with (EvSeek (entry_offset h i) :: EvRead (sh_size b)
              :: visits b h (i + 1) (S n)).
    rewrite IH. replace (i + Z.of_nat (S n)) with (i + 1 + Z.of_nat n) by lia.
    reflexivity.
Qed.

(** The scan on a table whose first entry named .rodata has index [k]:
    it returns that entry after visiting the entries 0 to [k]. *)
Lemma get_rodata_header_found (f f1 : fobj) b h st (k : Z) sh :
  nominal f -> file_size f <= ssize_max ->
  prelude f = Ret (b, h, st) f1 ->
  0 <= k < Header.shnum h ->
  (forall j, 0 <= j < k -> other_entry (content f) b h st j) ->
  rodata_entry (content f) b h st k sh ->
  exists f2,
    get_rodata_header f = Ret sh f2
    /\ trace f2 = trace f1 ++ visits b h 0 (S (Z.to_nat k)).
Proof.
  intros Hn Hs Hp Hk Ho Hr.
  pose proof (prelude_same_file _ _ _ Hp) as Hsame.
  pose proof (same_file_nominal _ _ Hsame Hn) as Hn1.
  destruct Hsame as (Hc & _).
  rewrite get_rodata_header_prelude, Hp.
  replace (Z.to_nat (Header.shnum h))
    with (Z.to_nat k + S (Z.to_nat (Header.shnum h - k - 1)))%nat by lia.
  destruct (scan_skip b h st (content f) Hs (Z.to_nat k)
              (S (Z.to_nat (Header.shnum h - k - 1))) 0 f1 Hn1 Hc)
    as (f' & E & N & C & T).
  { intros j Hj. apply Ho. lia. }
  rewrite E, Z.add_0_l, Z2Nat.id by lia.
  rewrite (scan_found b h st (content f) Hs _ k f' sh N C Hr).
  eexists. split; [reflexivity|].
  rewrite visited_trace, T, <- app_assoc, visits_snoc.
  now rewrite Z.add_0_l, Z2Nat.id by lia.
Qed.

(** The scan on a table none of whose entries is named .rodata: it
    raises after visiting all of them. *)
Lemma get_rodata_header_not_found (f f1 : fobj) b h st :
  nominal f -> file_size f <= ssize_max ->
  prelude f = Ret (b, h, st) f1 ->
  (forall j, 0 <= j < Header.shnum h -> other_entry (content f) b h st j) ->
  exists f2,
    get_rodata_header f = Raise (ParseError NoRodata) f2
    /\ trace f2 = trace f1 ++ visits b h 0 (Z.to_nat (Header.shnum h)).
Proof.
  intros Hn Hs Hp Ho.
  pose proof (prelude_same_file _ _ _ Hp) as Hsame.
  pose proof (same_file_nominal _ _ Hsame Hn) as Hn1.
  destruct Hsame as (Hc & _).
  rewrite get_rodata_header_prelude, Hp.
  destruct (scan_skip b h st (content f) Hs (Z.to_nat (Header.shnum h))
              0%nat 0 f1 Hn1 Hc)
    as (f' & E & N & C & T).
  { intros j Hj. apply Ho. lia. }
  rewrite Nat.add_0_r in E. rewrite E. cbn [scan]. exists f'. split; [reflexivity | exact T].
Qed.

(** C6. On a file that passes header parsing, that fits the offsets of
    the platform and whose section-header entries are all in the file,
    none of them named .rodata, the scan visits the [shnum] entries, in
    order, and then [get_rodata_header] raises the not-found
    [ParseError] "No .rodata section found". *)
Theorem no_rodata_not_found (f f1 : fobj) (b : Bitness) (h : Header.t)
    (st : bytes) :
  nominal f -> file_size f <= ssize_max ->
  prelude f = Ret (b, h, st) f1 ->
  (forall j, 0 <= j < Header.shnum h -> other_entry (content f) b h st j) ->
  exists f2,
    get_rodata_header f = Raise (ParseError NoRodata) f2
    /\ kind_of NoRodata = NotFoundFailure
    /\ trace f2 = trace f1 ++ visits b h 0 (Z.to_nat (Header.shnum h))
    /\ List.length (visits b h 0 (Z.to_nat (Header.shnum h)))
       = (2 * Z.to_nat (Header.shnum h))%nat.
Proof.
  intros Hn Hs Hp Ho.
  destruct (get_rodata_header_not_found f f1 b h st Hn Hs Hp Ho)
    as (f2 & E & T).
  exists f2. repeat split; auto.
  generalize 0 as i. generalize (Z.to_nat (Header.shnum h)) as n.
  induction n as [|n IH]; intros i; [reflexivity|].
  cbn [visits List.length]. rewrite IH. lia.
Qed.

(** C5. On such a file, when an entry is named .rodata (its name being
    the bytes of the string table from the entry's name offset up to
    the first null byte), [get_rodata_header] returns the entry of
    lowest index among those so named. *)
Theorem lowest_match_returned (f f1 : fobj) (b : Bitness) (h : Header.t)
    (st : bytes) (k : Z) (sh : SectionHeader.t) :
  nominal f -> file_size f <= ssize_max ->
  prelude f = Ret (b, h, st) f1 ->
  0 <= k < Header.shnum h ->
  entry_at (content f) b (entry_offset h k) = Some sh ->
  until_nul (slice_from st (SectionHeader.name sh)) = rodata ->
  (forall j, 0 <= j < k -> other_entry (content f) b h st j) ->
  exists f2, get_rodata_header f = Ret sh f2.
Proof.
  intros Hn Hs Hp Hk He Hname Ho.
  destruct (get_rodata_header_found f f1 b h st k sh Hn Hs Hp Hk Ho)
    as (f2 & E & _); [now split|].
  now exists f2.
Qed.

(** C3, as the code has it.  On such a file, the scan visits, in
    order, the entries up to and including the first one named .rodata
    and no entry after it; it visits the [shnum] entries when none is
    so named.  [k] is the index of the first entry named .rodata, or
    [shnum] when there is none. *)
Theorem scan_visits (f f1 : fobj) (b : Bitness) (h : Header.t)
    (st : bytes) (k : Z) :
  nominal f -> file_size f <= ssize_max ->
  prelude f = Ret (b, h, st) f1 ->
  0 <= k <= Header.shnum h ->
  (forall j, 0 <= j < k -> other_entry (content f) b h st j) ->
  (k < Header.shnum h -> exists sh, rodata_entry (content f) b h st k sh) ->
  trace (final (get_rodata_header f))
  = trace f1 ++ visits b h 0 (Z.to_nat (Z.min (k + 1) (Header.shnum h))).
Proof.
  intros Hn Hs Hp Hk Ho Hr.
  destruct (Z.ltb_spec k (Header.shnum h)) as [Hlt|Hge].
  - destruct (Hr Hlt) as [sh Hsh].
    destruct (get_rodata_header_found f f1 b h st k sh Hn Hs Hp
                ltac:(lia) Ho Hsh) as (f2 & E & T).
    rewrite E. cbn [final]. rewrite T. do 2 f_equal. lia.
  - assert (k = Header.shnum h) as -> by lia.
    destruct (get_rodata_header_not_found f f1 b h st Hn Hs Hp Ho)
      as (f2 & E & T).
    rewrite E. cbn [final]. rewrite T. do 2 f_equal. lia.
Qed.

Ltac sample_entries j Hj :=
  cbn [Header.shnum] in Hj;
  assert (j = 0 \/ j = 1 \/ j = 2) as [-> | [-> | ->]] by lia;
  (eexists; split; [vm_compute; reflexivity | vm_compute; discriminate]).

Lemma no_rodata_not_found_witness :
  exists f2,
    get_rodata_header no_rodata_file = Raise (ParseError NoRodata) f2
    /\ trace f2
       = [EvRead 16; EvRead 48; EvSeek 192; EvRead 64; EvSeek 256; EvRead 25;
          EvSeek 64; EvRead 64; EvSeek 128; EvRead 64; EvSeek 192; EvRead 64].
Proof.
  edestruct (no_rodata_not_found no_rodata_file) as (f2 & E & _ & T & _).
  - intros t. reflexivity.
  - vm_compute. discriminate.
  - vm_compute. reflexivity.
  - intros j Hj. sample_entries j Hj.
  - exists f2. split; [exact E|]. rewrite T. reflexivity.
Defined.

Lemma lowest_match_returned_witness :
  exists f2,
    get_rodata_header rodata_second_file
    = Ret (SectionHeader.mk 1 1 0 0 4096 0 0 0 1 0) f2.
Proof.
  eapply (lowest_match_returned rodata_second_file _ _ _ _ 1).
  - intros t. reflexivity.
  - vm_compute. discriminate.
  - vm_compute. reflexivity.
  - cbn [Header.shnum]. lia.
  - vm_compute. reflexivity.
  - vm_compute. reflexivity.
  - intros j Hj. assert (j = 0) as -> by lia.
    eexists; split; [vm_compute; reflexivity | vm_compute; discriminate].
Defined.

Lemma scan_visits_witness :
  trace (final (get_rodata_header rodata_first_file))
  = [EvRead 16; EvRead 48; EvSeek 192; EvRead 64; EvSeek 256; EvRead 25;
     EvSeek 64; EvRead 64].
Proof.
  eapply eq_trans; [eapply (scan_visits rodata_first_file _ _ _ _ 0)|].
  - intros t. reflexivity.
  - vm_compute. discriminate.
  - vm_compute. reflexivity.
  - cbn [Header.shnum]. lia.
  - intros j Hj. lia.
  - intros _. eexists. split; vm_compute; reflexivity.
  - reflexivity.
Defined.

(** C3, as the specification states it, fails: on a table of three
    entries whose first entry is named .rodata, header parsing
    succeeds, and the scan visits one entry, not three. *)
Lemma all_entries_visited_refuted :
  exists b h st f1 sh f2,
    prelude rodata_first_file = Ret (b, h, st) f1
    /\ Header.shnum h = 3
    /\ get_rodata_header rodata_first_file = Ret sh f2
    /\ trace f2 = trace f1 ++ visits b h 0 1
    /\ trace f2 <> trace f1 ++ visits b h 0 (Z.to_nat (Header.shnum h)).
Proof.
  do 6 eexists. split; [vm_compute; reflexivity|].
  split; [reflexivity|].
  split; [vm_compute; reflexivity|].
  split; [reflexivity|].
  vm_compute. discriminate.
Qed.


(** ** The whole pipeline *)

Lemma mmap_ok (length offset : Z) (f : fobj) :
  nominal f ->
  0 < length -> 0 <= offset ->
  offset + length <= file_size f -> file_size f <= ssize_max ->
  offset mod granularity f = 0 ->
  mmap length offset f
  = Ret (slice (content f) offset length) (log (EvMmap length offset) f).
Proof.
  intros Hn Hl Ho Hr Hs Hg. unfold mmap.
  cbn [log trace os_error content granularity].
  change (file_size (log (EvMmap length offset) f)) with (file_size f).
  destruct (ssize_max <? length) eqn:E1; [apply Z.ltb_lt in E1; lia|].
  destruct (ssize_max <? offset) eqn:E2; [apply Z.ltb_lt in E2; lia|].
  destruct (length <? 0) eqn:E3; [apply Z.ltb_lt in E3; lia|].
  destruct (offset <? 0) eqn:E4; [apply Z.ltb_lt in E4; lia|].
  destruct (length =? 0) eqn:E5; [apply Z.eqb_eq in E5; lia|].
  destruct (file_size f <? offset) eqn:E6; [apply Z.ltb_lt in E6; lia|].
  destruct (file_size f - offset <? length) eqn:E7;
    [apply Z.ltb_lt in E7; lia|].
  cbn [orb]. rewrite Hg, Hn. reflexivity.
Qed.

Lemma parse_webenginecore_returns (d : disk_file) (v : Versions) (f' : fobj) :
  _parse_from_path (path_open d) = Ret v f' ->
  parse_webenginecore (Some d) = Returns (Some v).
Proof.
  intros H. unfold parse_webenginecore, try_except, bind. now rewrite H.
Qed.

Lemma parse_webenginecore_caught (d : disk_file) (r : reason) (f' : fobj) :
  _parse_from_path (path_open d) = Raise (ParseError r) f' ->
  parse_webenginecore (Some d) = Returns None.
Proof.
  intros H. unfold parse_webenginecore, try_except, bind. now rewrite H.
Qed.

(** The boundary: only [ParseError] is turned into [None]. *)
Lemma parse_webenginecore_propagates (d : disk_file) (e : exn) (f' : fobj) :
  _parse_from_path (path_open d) = Raise e f' ->
  is_ParseError e = false ->
  parse_webenginecore (Some d) = Propagates e.
Proof.
  intros H He. unfold parse_webenginecore, try_except, bind.
  now rewrite H, He.
Qed.

Lemma run_head (cls : byte -> bool) (s : bytes) :
  match s with c :: _ => cls c = false | [] => True end ->
  run cls s = [].
Proof. destruct s as [|c s]; simpl; [reflexivity|]. now intros ->. Qed.

Lemma search_marker (pre post : bytes) :
  (forall i v1 v2, (i < List.length pre)%nat ->
                   ~ occurs_at (pre ++ marker ++ post) i v1 v2) ->
  match post with c :: _ => version_char c = false | [] => True end ->
  re_search pattern (pre ++ marker ++ post)
  = Some [marker_version; marker_version].
Proof.
  intros Hpre Hpost.
  assert (Hv : is_version marker_version)
    by (split; [discriminate | reflexivity]).
  assert (Hm : marker_at (marker ++ post)
               = Some (marker_version, marker_version)).
  { change (marker ++ post)
      with (QT ++ marker_version ++ CH ++ marker_version ++ post).
    rewrite marker_at_app by assumption.
    now rewrite (run_head _ _ Hpost), app_nil_r. }
  assert (Hs : skipn (List.length pre) (pre ++ marker ++ post)
               = marker ++ post).
  { rewrite skipn_app, skipn_all, Nat.sub_diag. reflexivity. }
  assert (Hh : match_here pattern
                 (skipn (List.length pre) (pre ++ marker ++ post))
               = Some [marker_version; marker_version])
    by (rewrite Hs, match_here_pattern, Hm; reflexivity).
  destruct (re_search_leftmost _ _ _ _ Hh) as (j & caps & Hj & Hr & Hmj & _).
  rewrite Hr. destruct (Nat.eq_dec j (List.length pre)) as [->|Hne].
  - congruence.
  - exfalso. rewrite match_here_pattern in Hmj.
    destruct (marker_at (skipn j (pre ++ marker ++ post)))
      as [[w1 w2]|] eqn:Ew; [|discriminate].
    apply marker_at_sound, occurs_at_skipn in Ew.
    apply (Hpre j w1 w2); [lia | exact Ew].
Qed.

Lemma stable_section_name (st : bytes) (name : Z) :
  stable (section_name st name).
Proof. intros f. rewrite section_name_eq. apply same_file_refl. Qed.

Lemma stable_scan b h st (n : nat) (i : Z) : stable (scan b h st n i).
Proof.
  revert i; induction n as [|n IH]; intros i; cbn [scan].
  - apply stable_raise.
  - apply stable_bind; [apply stable_seek|]. intros _.
    apply stable_bind; [apply stable_SectionHeader_parse|]. intros e.
    apply stable_bind; [apply stable_section_name|]. intros nm.
    destruct (bytes_eqb _ _); [apply stable_ret | apply IH].
Qed.

Lemma stable_get_rodata_header : stable get_rodata_header.
Proof.
  intros f. rewrite get_rodata_header_prelude.
  pose proof (stable_prelude f) as S.
  destruct (prelude f) as [[[b h] st] f1|e f1]; [|exact S].
  eapply same_file_trans; [exact S | apply stable_scan].
Qed.






Lemma entry_at_nonneg (bs : bytes) (b : Bitness) (off : Z) sh :
  entry_at bs b off = Some sh ->
  0 <= SectionHeader.offset sh /\ 0 <= SectionHeader.size sh.
Proof.
  unfold entry_at. destruct (_ && _); [|discriminate].
  unfold decode_entry.
  destruct b; cbn [fields SectionHeader._FORMATS];
    intros [= <-]; cbn [SectionHeader.offset SectionHeader.size];
    split; apply le_int_nonneg.
Qed.

(** C1, as the code has it.  Take a library file on a device without
    errors, that passes header parsing as a little-endian 64-bit file,
    whose first section-header entry named .rodata has index [k], all
    entries before it being in the file.  When that section lies inside
    the file, starts on a multiple of the allocation granularity, and
    its bytes are [pre ++ marker ++ post] where no occurrence of the
    pattern starts inside [pre] and [post] does not start with a digit
    or a period, [parse_webenginecore] returns the versions
    "89.0.4389.90" and "89.0.4389.90". *)
Theorem versions_from_file (d : disk_file) (f1 : fobj) (h : Header.t)
    (st : bytes) (k : Z) (sh : SectionHeader.t) (pre post : bytes) :
  nominal (path_open d) ->
  file_size (path_open d) <= ssize_max ->
  prelude (path_open d) = Ret (x64, h, st) f1 ->
  0 <= k < Header.shnum h ->
  (forall j, 0 <= j < k -> other_entry (df_content d) x64 h st j) ->
  rodata_entry (df_content d) x64 h st k sh ->
  SectionHeader.offset sh + SectionHeader.size sh <= file_size (path_open d) ->
  SectionHeader.offset sh mod df_granularity d = 0 ->
  slice (df_content d) (SectionHeader.offset sh) (SectionHeader.size sh)
  = pre ++ marker ++ post ->
  (forall i v1 v2, (i < List.length pre)%nat ->
                   ~ occurs_at (pre ++ marker ++ post) i v1 v2) ->
  match post with c :: _ => version_char c = false | [] => True end ->
  parse_webenginecore (Some d) = Returns (Some claimed_versions).
Proof.
  intros Hn Hs Hp Hk Ho Hr Hin Hal Hbytes Hpre Hpost.
  destruct (get_rodata_header_found (path_open d) f1 x64 h st k sh
              Hn Hs Hp Hk Ho Hr) as (f2 & Hg & _).
  assert (Hsame : same_file (path_open d) f2).
  { pose proof (stable_get_rodata_header (path_open d)) as S.
    now rewrite Hg in S. }
  pose proof (same_file_nominal _ _ Hsame Hn) as Hn2.
  destruct Hsame as (Hc & _ & Hgr & _).
  destruct Hr as [He _]. destruct (entry_at_nonneg _ _ _ _ He) as [Hoff Hsz].
  assert (Hpos : 0 < SectionHeader.size sh).
  { pose proof (slice_length_le (df_content d) (SectionHeader.offset sh)
                  (SectionHeader.size sh)) as Hl.
    rewrite Hbytes, !length_app in Hl.
    change (List.length marker) with 44%nat in Hl. lia. }
  assert (Hm : mmap (SectionHeader.size sh) (SectionHeader.offset sh) f2
               = Ret (pre ++ marker ++ post)
                     (log (EvMmap (SectionHeader.size sh)
                                  (SectionHeader.offset sh)) f2)).
  { rewrite mmap_ok; try assumption.
    - rewrite Hc. cbn [path_open content]. now rewrite Hbytes.
    - unfold file_size in *. now rewrite Hc.
    - unfold file_size in *. now rewrite Hc.
    - now rewrite Hgr. }
  eapply parse_webenginecore_returns.
  rewrite (_parse_from_path_located _ _ _ _ _ Hg Hm).
  change claimed_versions
    with (mkVersions (string_of_list_byte marker_version)
                     (string_of_list_byte marker_version)).
  apply find_versions_match; [|reflexivity|reflexivity].
  now apply search_marker.
Qed.

Lemma versions_from_file_witness :
  parse_webenginecore (Some marker_lib) = Returns (Some claimed_versions).
Proof.
  eapply (versions_from_file marker_lib _ _ _ 1 _
            (bytes_of "Mozilla/5.0 ") (bytes_of " Safari/537.36")).
  - intros t. reflexivity.
  - vm_compute. discriminate.
  - vm_compute. reflexivity.
  - cbn [Header.shnum]. lia.
  - intros j Hj. assert (j = 0) as -> by lia.
    eexists; split; [vm_compute; reflexivity | vm_compute; discriminate].
  - split; vm_compute; reflexivity.
  - vm_compute. discriminate.
  - vm_compute. reflexivity.
  - vm_compute. reflexivity.
  - intros i v1 v2 Hi (_ & _ & rest & Hr).
    do 12 (destruct i as [|i]; [discriminate Hr|]).
    cbn [List.length bytes_of list_byte_of_string] in Hi.
    vm_compute in Hi. lia.
  - reflexivity.
Defined.

(** C1, as the specification states it, fails: each of these libraries
    is parsed up to a section named .rodata whose bytes contain the
    marker, and the call does not return the versions of the marker.
    In the first the marker comes after another occurrence of the
    pattern, in the second a digit follows it, in the third the section
    cannot be mapped where it starts. *)
Lemma embedded_marker_refuted :
  (embeds_marker two_markers_lib
   /\ parse_webenginecore (Some two_markers_lib)
      = Returns (Some (mkVersions "5.15.2" "83.0.4103.122")))
  /\ (embeds_marker longer_version_lib
      /\ parse_webenginecore (Some longer_version_lib)
         = Returns (Some (mkVersions "89.0.4389.90" "89.0.4389.905")))
  /\ (embeds_marker unaligned_lib
      /\ parse_webenginecore (Some unaligned_lib) = Returns None)
  /\ ~ (forall d, nominal (path_open d) -> embeds_marker d ->
                  parse_webenginecore (Some d)
                  = Returns (Some claimed_versions)).
Proof.
  assert (E1 : embeds_marker two_markers_lib).
  { do 2 eexists.
    exists (bytes_of "QtWebEngine/5.15.2 Chrome/83.0.4103.122 "), [].
    split; vm_compute; reflexivity. }
  assert (E2 : embeds_marker longer_version_lib).
  { do 2 eexists. exists [], (bytes_of "5 Safari/537.36").
    split; vm_compute; reflexivity. }
  assert (E3 : embeds_marker unaligned_lib).
  { do 2 eexists. exists [], [].
    split; vm_compute; reflexivity. }
  repeat split; try assumption; try (vm_compute; reflexivity).
  intros H. specialize (H two_markers_lib (fun _ => eq_refl) E1).
  vm_compute in H. discriminate H.
Qed.

(** C2.  Exceptions do leave [parse_webenginecore], which catches
    [ParseError] only: a seek that the file object refuses (the section
    table announced at 2^63) and a section announced past the end of
    the file raise [ValueError]; an error of the device on the seek to
    the string table's header or on the read of the string table raises
    [OSError].  None of them is wrapped in [ParseError], while the same
    error of the device on a read made by [_unpack] is wrapped and gives
    [None]. *)
Theorem failures_escape :
  parse_webenginecore (Some far_table_lib) = Propagates ValueError
  /\ parse_webenginecore (Some bad_seek_lib) = Propagates OSError
  /\ parse_webenginecore (Some bad_string_table_lib) = Propagates OSError
  /\ parse_webenginecore (Some section_past_end_lib) = Propagates ValueError
  /\ parse_webenginecore (Some bad_header_read_lib) = Returns None.
Proof. repeat split; vm_compute; reflexivity. Qed.

(** ** Truncated files *)

Lemma _unpack_short (fmt : list code) (f : fobj) :
  nominal f -> 0 <= pos f ->
  0 < Z.of_nat (calcsize fmt) <= 64 ->
  file_size f < pos f + Z.of_nat (calcsize fmt) ->
  _unpack fmt f
  = Raise (ParseError FromStructError)
          (after_read (Z.of_nat (calcsize fmt)) f).
Proof.
  intros Hn Hp Hs Hlt. rewrite _unpack_run by lia. rewrite Hn.
  pose proof (slice_length (content f) (pos f) (Z.of_nat (calcsize fmt))
                Hp ltac:(lia)) as Hl.
  destruct (Nat.eqb _ _) eqn:E; [|reflexivity].
  apply Nat.eqb_eq in E. unfold file_size in Hlt.
  assert (pos f + Z.of_nat (calcsize fmt)
          <= Z.of_nat (List.length (content f)))
    by (apply Hl; now rewrite E).
  lia.
Qed.

Lemma header_size_pos (b : Bitness) : 0 < header_size b <= 64.
Proof. destruct b; vm_compute; split; congruence. Qed.

Lemma entry_at_short (f : fobj) (b : Bitness) (off : Z) :
  ends_before f off (sh_size b) -> entry_at (content f) b off = None.
Proof.
  intros [_ H]. unfold entry_at, file_size in *.
  destruct (off + sh_size b <=? _) eqn:E; [apply Z.leb_le in E; lia|].
  now rewrite andb_false_r.
Qed.

Lemma Ident_parse_pos (f f1 : fobj) ident :
  Ident.parse f = Ret ident f1 -> 0 <= pos f -> 0 <= pos f1.
Proof.
  intros H Hp. apply Ident_parse_ret in H. subst f1. cbn. lia.
Qed.

Lemma get_rodata_header_truncated (f : fobj) :
  nominal f -> 0 <= pos f -> file_size f <= ssize_max ->
  truncated_mid_header f ->
  exists f', get_rodata_header f = Raise (ParseError FromStructError) f'.
Proof.
  intros Hn Hpos Hs [Hi | ident f1 Hp [Hm [Hd Hv]] Hh
                     | ident f1 h f2 Hp [Hm [Hd Hv]] Hh He
                     | b h st f1 k Hp Hk Ho He].
  - (* identification block *)
    eexists. unfold get_rodata_header, Ident.parse, bind.
    rewrite (_unpack_short Ident._FORMAT f Hn Hpos);
      [reflexivity | vm_compute; split; congruence | apply Hi].
  - (* primary header *)
    pose proof (stable_Ident_parse f) as S. rewrite Hp in S.
    cbn [final] in S.
    pose proof (same_file_nominal _ _ S Hn) as Hn1.
    pose proof (Ident_parse_pos _ _ _ Hp Hpos) as Hp1.
    eexists. unfold get_rodata_header, bind at 1. rewrite Hp.
    apply bytes_eqb_eq in Hm. rewrite Hm, Hd, Hv.
    cbn [negb Endianness_eqb Z.eqb Pos.eqb].
    unfold Header.parse, bind.
    rewrite (_unpack_short _ f1 Hn1 Hp1 (header_size_pos _));
      [reflexivity|].
    rewrite (same_file_size _ _ S). apply Hh.
  - (* header of the string table *)
    pose proof (stable_Ident_parse f) as S. rewrite Hp in S.
    cbn [final] in S.
    pose proof (stable_Header_parse (Ident.klass ident) f1) as S2.
    rewrite Hh in S2. cbn [final] in S2.
    pose proof (same_file_trans _ _ _ S S2) as S3.
    pose proof (same_file_nominal _ _ S3 Hn) as Hn2.
    assert (He2 : ends_before f2 (entry_offset h (Header.shstrndx h))
                    (sh_size (Ident.klass ident))).
    { unfold ends_before in *. now rewrite (same_file_size _ _ S3). }
    eexists. unfold get_rodata_header, bind at 1. rewrite Hp.
    apply bytes_eqb_eq in Hm. rewrite Hm, Hd, Hv.
    cbn [negb Endianness_eqb Z.eqb Pos.eqb].
    unfold bind at 1. rewrite Hh.
    fold (entry_offset h (Header.shstrndx h)).
    rewrite visit_run.
    + rewrite (entry_at_short _ _ _ He2). reflexivity.
    + exact Hn2.
    + apply He.
  - (* an entry of the scan *)
    pose proof (prelude_same_file _ _ _ Hp) as S.
    pose proof (same_file_nominal _ _ S Hn) as Hn1.
    destruct S as (Hc & _).
    rewrite get_rodata_header_prelude, Hp.
    replace (Z.to_nat (Header.shnum h))
      with (Z.to_nat k + S (Z.to_nat (Header.shnum h - k - 1)))%nat by lia.
    destruct (scan_skip b h st (content f) Hs (Z.to_nat k)
                (S (Z.to_nat (Header.shnum h - k - 1))) 0 f1 Hn1 Hc)
      as (f' & E & N & C & T).
    { intros j Hj. apply Ho. lia. }
    rewrite E, Z.add_0_l, Z2Nat.id by lia.
    eexists. apply scan_short with (bs := content f); auto.
    + apply He.
    + now apply entry_at_short.
Qed.

(** C8. When a library file, on a device without errors, ends inside
    the identification block, the primary header, the header of the
    string table or an entry that the scan reaches, so that the read of
    that layout is short, [get_rodata_header] raises the [ParseError]
    that wraps [struct.error], of the I/O kind, and
    [parse_webenginecore] returns [None]. *)
Theorem truncated_file_io_failure (d : disk_file) :
  nominal (path_open d) ->
  file_size (path_open d) <= ssize_max ->
  truncated_mid_header (path_open d) ->
  (exists f',
      get_rodata_header (path_open d) = Raise (ParseError FromStructError) f')
  /\ kind_of FromStructError = IOFailure
  /\ parse_webenginecore (Some d) = Returns None.
Proof.
  intros Hn Hs Ht.
  destruct (get_rodata_header_truncated (path_open d) Hn (Z.le_refl 0) Hs Ht)
    as [f' E].
  split; [now exists f'|]. split; [reflexivity|].
  apply (parse_webenginecore_caught d FromStructError f').
  unfold _parse_from_path, bind. now rewrite E.
Qed.

Lemma truncated_file_io_failure_witness :
  ((exists f',
       get_rodata_header (path_open cut_table_lib)
       = Raise (ParseError FromStructError) f')
   /\ kind_of FromStructError = IOFailure
   /\ parse_webenginecore (Some cut_table_lib) = Returns None)
  /\ ((exists f',
         get_rodata_header (path_open cut_entry_lib)
         = Raise (ParseError FromStructError) f')
      /\ kind_of FromStructError = IOFailure
      /\ parse_webenginecore (Some cut_entry_lib) = Returns None).
Proof.
  split.
  - apply (truncated_file_io_failure cut_table_lib).
    + intros t. reflexivity.
    + vm_compute. discriminate.
    + eapply truncated_string_table_header.
      * vm_compute. reflexivity.
      * repeat split.
      * vm_compute. reflexivity.
      * vm_compute. repeat split; congruence.
  - apply (truncated_file_io_failure cut_entry_lib).
    + intros t. reflexivity.
    + vm_compute. discriminate.
    + eapply (truncated_entry _ _ _ _ _ 1).
      * vm_compute. reflexivity.
      * cbn [Header.shnum]. lia.
      * intros j Hj. assert (j = 0) as -> by lia.
        eexists; split; [vm_compute; reflexivity | vm_compute; discriminate].
      * vm_compute. repeat split; congruence.
Defined.

(** * Further properties of the parser *)

(** ** What the primitives did when they returned *)

Lemma seek_ret (off x : Z) (f f' : fobj) :
  seek off f = Ret x f' ->
  0 <= off <= ssize_max /\ f' = set_pos off (log (EvSeek off) f).
Proof.
  unfold seek.
  destruct (ssize_max <? off) eqn:E1; [discriminate|].
  destruct (off <? 0) eqn:E2; [discriminate|]. cbn [orb].
  destruct (os_error _ _); [discriminate|].
  intros [= _ <-]. apply Z.ltb_ge in E1, E2. auto.
Qed.

Lemma read_ret (size : Z) (data : bytes) (f f' : fobj) :
  read size f = Ret data f' -> 0 <= size ->
  size <= bytes_max
  /\ size <= read_limit f
  /\ data = slice (content f) (pos f) size
  /\ f' = after_read size f.
Proof.
  unfold read. intros H Hs.
  change (read_limit (log (EvRead size) f)) with (read_limit f) in H.
  destruct (bytes_max <? size) eqn:E1; [discriminate|].
  destruct (read_limit f <? size) eqn:E3; [discriminate|].
  destruct (os_error _ _); [discriminate|].
  destruct (size <? 0) eqn:E2; [apply Z.ltb_lt in E2; lia|].
  injection H as <- <-. apply Z.ltb_ge in E1, E3. auto.
Qed.

Lemma _unpack_ret (fmt : list code) (vals : list value) (f f' : fobj) :
  0 <= Z.of_nat (calcsize fmt) <= 64 ->
  _unpack fmt f = Ret vals f' ->
  let data := slice (content f) (pos f) (Z.of_nat (calcsize fmt)) in
  List.length data = calcsize fmt
  /\ vals = fields fmt data
  /\ f' = after_read (Z.of_nat (calcsize fmt)) f.
Proof.
  intros Hs. rewrite _unpack_run by assumption. cbv zeta.
  destruct (os_error _ _); [discriminate|].
  destruct (Nat.eqb _ _) eqn:E; [|discriminate].
  apply Nat.eqb_eq in E. now intros [= <- <-].
Qed.

(** ** Ranges of the decoded fields *)

Lemma byte_val_bound (b : byte) : 0 <= byte_val b < 256.
Proof.
  unfold byte_val. pose proof (Byte.to_N_bounded b). lia.
Qed.

Lemma le_int_bound (bs : bytes) :
  0 <= le_int bs < 256 ^ Z.of_nat (List.length bs).
Proof.
  induction bs as [|b bs IH].
  - cbn. lia.
  - cbn [le_int List.length]. rewrite Nat2Z.inj_succ, Z.pow_succ_r by lia.
    pose proof (byte_val_bound b). lia.
Qed.

Lemma le_int_firstn (n : nat) (data : bytes) :
  unsigned n (le_int (firstn n data)).
Proof.
  unfold unsigned. pose proof (le_int_bound (firstn n data)) as H.
  pose proof (length_firstn n data) as L.
  assert (256 ^ Z.of_nat (List.length (firstn n data)) <= 256 ^ Z.of_nat n)
    by (apply Z.pow_le_mono_r; lia).
  lia.
Qed.

Lemma Header_parse_ret (b : Bitness) (h : Header.t) (f f' : fobj) :
  Header.parse b f = Ret h f' ->
  List.length (slice (content f) (pos f) (header_size b))
  = calcsize (Header._FORMATS b)
  /\ decode_header b (slice (content f) (pos f) (header_size b)) = Some h
  /\ f' = after_read (header_size b) f.
Proof.
  unfold Header.parse, bind.
  destruct (_unpack (Header._FORMATS b) f) as [vals f1|] eqn:E; [|discriminate].
  apply _unpack_ret in E; [|destruct b; apply calcsize_small; simpl; tauto].
  fold (header_size b) in E. destruct E as (L & -> & ->).
  unfold decode_header.
  destruct b; cbn [fields Header._FORMATS]; intros [= <-]; auto.
Qed.

Lemma SectionHeader_parse_ret (b : Bitness) (sh : SectionHeader.t)
    (f f' : fobj) :
  SectionHeader.parse b f = Ret sh f' ->
  List.length (slice (content f) (pos f) (sh_size b))
  = calcsize (SectionHeader._FORMATS b)
  /\ decode_entry b (slice (content f) (pos f) (sh_size b)) = Some sh
  /\ f' = after_read (sh_size b) f.
Proof.
  unfold SectionHeader.parse, bind.
  destruct (_unpack (SectionHeader._FORMATS b) f) as [vals f1|] eqn:E;
    [|discriminate].
  apply _unpack_ret in E; [|destruct b; apply calcsize_small; simpl; tauto].
  fold (sh_size b) in E. destruct E as (L & -> & ->).
  unfold decode_entry.
  destruct b; cbn [fields SectionHeader._FORMATS]; intros [= <-]; auto.
Qed.

Lemma unsigned_weaken (n m : nat) (z : Z) :
  (n <= m)%nat -> unsigned n z -> unsigned m z.
Proof.
  unfold unsigned. intros Hnm [H0 H1]. split; [exact H0|].
  assert (256 ^ Z.of_nat n <= 256 ^ Z.of_nat m)
    by (apply Z.pow_le_mono_r; lia).
  lia.
Qed.

(** Each value that [fields] decodes has the width of its code. *)
Lemma fields_widths (fmt : list code) (data : bytes) :
  Forall2 value_fits (value_widths fmt) (fields fmt data).
Proof.
  revert data; induction fmt as [|c fmt IH]; intros data.
  - constructor.
  - destruct c; cbn [fields value_widths]; try apply IH;
      constructor; try apply IH; cbn [value_fits code_size Struct.code_size].
    + rewrite length_firstn. lia.
    + apply (le_int_firstn 1).
    + apply (le_int_firstn 2).
    + apply (le_int_firstn 4).
    + apply (le_int_firstn 8).
Qed.

Ltac fits_fields H :=
  repeat match type of H with
         | Forall2 _ (_ :: _) (_ :: _) =>
             let H1 := fresh "Hfit" in
             let H2 := fresh "Hrest" in
             apply Forall2_cons_iff in H; destruct H as [H1 H2];
             cbn [value_fits] in H1; rename H2 into H
         end.

Lemma Header_parse_unsigned (b : Bitness) (h : Header.t) (f f' : fobj) :
  Header.parse b f = Ret h f' ->
  unsigned 2 (Header.typ h) /\ unsigned 2 (Header.machine h)
  /\ unsigned 4 (Header.version h)
  /\ unsigned (word_bytes b) (Header.entry h)
  /\ unsigned (word_bytes b) (Header.phoff h)
  /\ unsigned (word_bytes b) (Header.shoff h)
  /\ unsigned 4 (Header.flags h)
  /\ unsigned 2 (Header.ehsize h) /\ unsigned 2 (Header.phentsize h)
  /\ unsigned 2 (Header.phnum h) /\ unsigned 2 (Header.shentsize h)
  /\ unsigned 2 (Header.shnum h) /\ unsigned 2 (Header.shstrndx h).
Proof.
  intros H. apply Header_parse_ret in H as (_ & H & _).
  unfold decode_header in H.
  pose proof (fields_widths (Header._FORMATS b)
                (slice (content f) (pos f) (header_size b))) as W.
  destruct b; cbn [fields value_widths Header._FORMATS] in H, W;
    injection H as <-; fits_fields W;
    cbn [Header.typ Header.machine Header.version Header.entry Header.phoff
         Header.shoff Header.flags Header.ehsize Header.phentsize
         Header.phnum Header.shentsize Header.shnum Header.shstrndx
         word_bytes];
    repeat match goal with |- _ /\ _ => split end;
    match goal with H : unsigned _ ?x |- unsigned _ ?x => exact H end.
Qed.

(** X1. Every field of the primary header that [Header.parse] returns
    is an unsigned integer of the width of its format code: 16 bits
    for the type, the machine, the sizes, the counts and the index of
    the string table, 32 bits for the version and the flags, and 32 or
    64 bits, by the class, for the entry point and the two table
    offsets. *)
Theorem Header_parse_fields (b : Bitness) (h : Header.t) (f f' : fobj) :
  Header.parse b f = Ret h f' ->
  unsigned 2 (Header.typ h) /\ unsigned 2 (Header.machine h)
  /\ unsigned 4 (Header.version h)
  /\ unsigned (word_bytes b) (Header.entry h)
  /\ unsigned (word_bytes b) (Header.phoff h)
  /\ unsigned (word_bytes b) (Header.shoff h)
  /\ unsigned 4 (Header.flags h)
  /\ unsigned 2 (Header.ehsize h) /\ unsigned 2 (Header.phentsize h)
  /\ unsigned 2 (Header.phnum h) /\ unsigned 2 (Header.shentsize h)
  /\ unsigned 2 (Header.shnum h) /\ unsigned 2 (Header.shstrndx h).
Proof. apply Header_parse_unsigned. Qed.

Lemma Header_parse_fields_witness :
  unsigned 2 3 /\ unsigned 2 62 /\ unsigned 4 1
  /\ unsigned 8 0 /\ unsigned 8 0 /\ unsigned 8 64 /\ unsigned 4 0
  /\ unsigned 2 64 /\ unsigned 2 0 /\ unsigned 2 0 /\ unsigned 2 64
  /\ unsigned 2 3 /\ unsigned 2 2.
Proof.
  apply (Header_parse_fields x64
           (Header.mk 3 62 1 0 0 64 0 64 0 0 64 3 2)
           (after_read 16 rodata_second_file)
           (after_read 48 (after_read 16 rodata_second_file))).
  vm_compute. reflexivity.
Defined.

Lemma SectionHeader_parse_unsigned (b : Bitness) (sh : SectionHeader.t)
    (f f' : fobj) :
  SectionHeader.parse b f = Ret sh f' ->
  unsigned 4 (SectionHeader.name sh) /\ unsigned 4 (SectionHeader.typ sh)
  /\ unsigned (word_bytes b) (SectionHeader.flags sh)
  /\ unsigned (word_bytes b) (SectionHeader.addr sh)
  /\ unsigned (word_bytes b) (SectionHeader.offset sh)
  /\ unsigned (word_bytes b) (SectionHeader.size sh)
  /\ unsigned 4 (SectionHeader.link sh) /\ unsigned 4 (SectionHeader.info sh)
  /\ unsigned (word_bytes b) (SectionHeader.addralign sh)
  /\ unsigned (word_bytes b) (SectionHeader.entsize sh).
Proof.
  intros H. apply SectionHeader_parse_ret in H as (_ & H & _).
  unfold decode_entry in H.
  pose proof (fields_widths (SectionHeader._FORMATS b)
                (slice (content f) (pos f) (sh_size b))) as W.
  destruct b; cbn [fields value_widths SectionHeader._FORMATS] in H, W;
    injection H as <-; fits_fields W;
    cbn [SectionHeader.name SectionHeader.typ SectionHeader.flags
         SectionHeader.addr SectionHeader.offset SectionHeader.size
         SectionHeader.link SectionHeader.info SectionHeader.addralign
         SectionHeader.entsize word_bytes];
    repeat match goal with |- _ /\ _ => split end;
    match goal with H : unsigned _ ?x |- unsigned _ ?x => exact H end.
Qed.

(** X2. Every field of a section-header entry that
    [SectionHeader.parse] returns is an unsigned integer of the width
    of its format code: 32 bits for the name offset, the type, the link
    and the info, and 32 or 64 bits, by the class, for the flags, the
    address, the file offset, the size, the alignment and the entry
    size. *)
Theorem SectionHeader_parse_fields (b : Bitness) (sh : SectionHeader.t)
    (f f' : fobj) :
  SectionHeader.parse b f = Ret sh f' ->
  unsigned 4 (SectionHeader.name sh) /\ unsigned 4 (SectionHeader.typ sh)
  /\ unsigned (word_bytes b) (SectionHeader.flags sh)
  /\ unsigned (word_bytes b) (SectionHeader.addr sh)
  /\ unsigned (word_bytes b) (SectionHeader.offset sh)
  /\ unsigned (word_bytes b) (SectionHeader.size sh)
  /\ unsigned 4 (SectionHeader.link sh) /\ unsigned 4 (SectionHeader.info sh)
  /\ unsigned (word_bytes b) (SectionHeader.addralign sh)
  /\ unsigned (word_bytes b) (SectionHeader.entsize sh).
Proof. apply SectionHeader_parse_unsigned. Qed.

Lemma SectionHeader_parse_fields_witness :
  unsigned 4 0 /\ unsigned 4 1 /\ unsigned 8 0 /\ unsigned 8 0
  /\ unsigned 8 0 /\ unsigned 8 0 /\ unsigned 4 0 /\ unsigned 4 0
  /\ unsigned 8 1 /\ unsigned 8 0.
Proof.
  apply (SectionHeader_parse_fields x64
           (SectionHeader.mk 0 1 0 0 0 0 0 0 1 0)
           (after_read 48 (after_read 16 rodata_second_file))
           (after_read 64 (after_read 48 (after_read 16 rodata_second_file)))).
  vm_compute. reflexivity.
Defined.

(** ** The number of calls on the file object *)

Lemma calls_from_le {A} (m : M A) (f : fobj) (n n' : Z) :
  n <= n' -> calls_from m f n -> calls_from m f n'.
Proof. intros Hn (t & E & L). exists t. split; [exact E | lia]. Qed.

Lemma calls_ret {A} (a : A) (f : fobj) : calls_from (ret a) f 0.
Proof. exists []. cbn. rewrite app_nil_r. split; [reflexivity | lia]. Qed.

Lemma calls_raise {A} (e : exn) (f : fobj) : calls_from (@raise A e) f 0.
Proof. exists []. cbn. rewrite app_nil_r. split; [reflexivity | lia]. Qed.

Lemma calls_bind {A B} (m : M A) (k : A -> M B) (f : fobj) (n1 n2 : Z) :
  0 <= n2 ->
  calls_from m f n1 ->
  (forall a f', m f = Ret a f' -> calls_from (k a) f' n2) ->
  calls_from (bind m k) f (n1 + n2).
Proof.
  unfold calls_from, bind. intros H2 (t1 & E1 & L1) Hk.
  destruct (m f) as [a f'|e f']; cbn [final] in E1.
  - destruct (Hk a f' eq_refl) as (t2 & E2 & L2).
    exists (t1 ++ t2). rewrite E2, E1, app_assoc, length_app.
    split; [reflexivity | lia].
  - exists t1. cbn [final]. split; [exact E1 | lia].
Qed.

Lemma calls_try_raise {A} (m : M A) handles (e' : exn) (f : fobj) (n : Z) :
  calls_from m f n ->
  calls_from (try_except m handles (fun _ => raise e')) f n.
Proof.
  intros (t & E & L). exists t. unfold try_except.
  destruct (m f) as [a f'|e f']; cbn [final] in *; [auto|].
  destruct (handles e); cbn; auto.
Qed.

Lemma calls_read (size : Z) (f : fobj) : calls_from (read size) f 1.
Proof.
  exists [EvRead size]. unfold read.
  repeat match goal with
         | |- context [if ?c then _ else _] => destruct c
         end; cbn; split; (reflexivity || lia).
Qed.

Lemma calls_seek (offset : Z) (f : fobj) : calls_from (seek offset) f 1.
Proof.
  exists [EvSeek offset]. unfold seek.
  repeat match goal with
         | |- context [if ?c then _ else _] => destruct c
         end; cbn; split; (reflexivity || lia).
Qed.

Lemma calls_mmap (length offset : Z) (f : fobj) :
  calls_from (mmap length offset) f 1.
Proof.
  exists [EvMmap length offset]. unfold mmap.
  repeat match goal with
         | |- context [if ?c then _ else _] => destruct c
         end; cbn; split; (reflexivity || lia).
Qed.

Lemma calls__unpack (fmt : list code) (f : fobj) : calls_from (_unpack fmt) f 1.
Proof.
  unfold _unpack. apply (calls_bind _ _ f 1 0); [lia | |].
  - apply calls_try_raise, calls_read.
  - intros data f' _. apply calls_try_raise. unfold struct_unpack.
    destruct (unpack fmt data); [apply calls_ret | apply calls_raise].
Qed.

Lemma calls_Ident_parse (f : fobj) : calls_from Ident.parse f 1.
Proof.
  unfold Ident.parse.
  apply (calls_bind _ _ f 1 0); [lia | apply calls__unpack |].
  intros vals f' _.
  repeat match goal with
         | |- calls_from (match ?x with _ => _ end) _ _ => destruct x
         end; first [apply calls_ret | apply calls_raise].
Qed.

Lemma calls_Header_parse (b : Bitness) (f : fobj) :
  calls_from (Header.parse b) f 1.
Proof.
  unfold Header.parse.
  apply (calls_bind _ _ f 1 0); [lia | apply calls__unpack |].
  intros vals f' _.
  repeat match goal with
         | |- calls_from (match ?x with _ => _ end) _ _ => destruct x
         end; first [apply calls_ret | apply calls_raise].
Qed.

Lemma calls_SectionHeader_parse (b : Bitness) (f : fobj) :
  calls_from (SectionHeader.parse b) f 1.
Proof.
  unfold SectionHeader.parse.
  apply (calls_bind _ _ f 1 0); [lia | apply calls__unpack |].
  intros vals f' _.
  repeat match goal with
         | |- calls_from (match ?x with _ => _ end) _ _ => destruct x
         end; first [apply calls_ret | apply calls_raise].
Qed.

Lemma calls_scan b h st (n : nat) (i : Z) (f : fobj) :
  calls_from (scan b h st n i) f (2 * Z.of_nat n).
Proof.
  revert i f; induction n as [|n IH]; intros i f; cbn [scan].
  - apply calls_raise.
  - replace (2 * Z.of_nat (S n)) with (1 + (1 + (0 + 2 * Z.of_nat n))) by lia.
    apply calls_bind; [lia | apply calls_seek |]. intros _ f1 _.
    apply calls_bind; [lia | apply calls_SectionHeader_parse |].
    intros sh f2 _.
    apply calls_bind; [lia | |].
    + unfold calls_from. rewrite section_name_eq.
      exists []. cbn. rewrite app_nil_r. split; [reflexivity | lia].
    + intros nm f3 _. destruct (bytes_eqb nm rodata).
      * apply calls_from_le with (n := 0); [lia | apply calls_ret].
      * apply IH.
Qed.

Lemma calls_get_rodata_header (f : fobj) :
  calls_from get_rodata_header f 131076.
Proof.
  unfold get_rodata_header.
  change 131076 with (1 + (1 + (1 + (1 + (1 + (1 + 2 * 65535)))))).
  apply calls_bind; [lia | apply calls_Ident_parse |]. intros ident f1 _.
  destruct (negb _);
    [eapply calls_from_le; [|apply calls_raise]; lia|].
  destruct (negb _);
    [eapply calls_from_le; [|apply calls_raise]; lia|].
  destruct (negb _);
    [eapply calls_from_le; [|apply calls_raise]; lia|].
  apply calls_bind; [lia | apply calls_Header_parse |]. intros h f2 Hh.
  apply calls_bind; [lia | apply calls_seek |]. intros _ f3 _.
  apply calls_bind; [lia | apply calls_SectionHeader_parse |].
  intros shstr f4 _.
  apply calls_bind; [lia | apply calls_seek |]. intros _ f5 _.
  apply calls_bind; [lia | apply calls_read |]. intros st f6 _.
  apply Header_parse_unsigned in Hh.
  destruct Hh as (_ & _ & _ & _ & _ & _ & _ & _ & _ & _ & _ & [_ Hn] & _).
  apply calls_from_le
    with (n := 2 * Z.of_nat (Z.to_nat (Header.shnum h))).
  - change (256 ^ Z.of_nat 2) with 65536 in Hn. lia.
  - apply calls_scan.
Qed.

Lemma calls_group (caps : list bytes) (n : nat) (f : fobj) :
  calls_from (group caps n) f 0.
Proof.
  unfold group. destruct (nth_error caps (n - 1));
    [apply calls_ret | apply calls_raise].
Qed.

Lemma calls_decode_ascii (b : bytes) (f : fobj) :
  calls_from (decode_ascii b) f 0.
Proof.
  unfold decode_ascii. destruct (forallb _ b);
    [apply calls_ret | apply calls_raise].
Qed.

(** X3. Whatever the file and the device, [_parse_from_path] makes at
    most 131077 calls on the file object: the six of the headers and
    of the string table, a seek and a read for each of at most 65535
    entries, and the mapping.  The calls made before it stay in the
    trace. *)
Theorem _parse_from_path_calls (f : fobj) :
  exists t,
    trace (final (_parse_from_path f)) = trace f ++ t
    /\ Z.of_nat (List.length t) <= 131077
    /\ calls_from get_rodata_header f 131076.
Proof.
  assert (H : calls_from _parse_from_path f (131076 + (1 + 0))).
  { unfold _parse_from_path.
    apply calls_bind; [lia | apply calls_get_rodata_header |].
    intros sh f1 _.
    apply calls_bind; [lia | apply calls_try_raise, calls_mmap |].
    intros region f2 _. unfold find_versions.
    destruct (re_search pattern region) as [m|]; [|apply calls_raise].
    apply calls_try_raise.
    change 0 with (0 + (0 + (0 + (0 + 0)))).
    apply calls_bind; [lia | apply calls_group |]. intros g1 f3 _.
    apply calls_bind; [lia | apply calls_decode_ascii |]. intros w f4 _.
    apply calls_bind; [lia | apply calls_group |]. intros g2 f5 _.
    apply calls_bind; [lia | apply calls_decode_ascii |]. intros c f6 _.
    apply calls_ret. }
  destruct H as (t & E & L). exists t.
  split; [exact E|]. split; [lia | apply calls_get_rodata_header].
Qed.

(** ** What a returned section header tells about the file *)

Lemma Ident_parse_inv (f f1 : fobj) (ident : Ident.t) :
  Ident.parse f = Ret ident f1 ->
  os_error f (trace f ++ [EvRead 16]) = false
  /\ List.length (ident_block f) = 16%nat
  /\ decode_ident (ident_block f) = Some ident
  /\ f1 = after_read 16 f.
Proof.
  unfold Ident.parse, bind.
  rewrite (_unpack_run Ident._FORMAT f) by (apply calcsize_small; simpl; auto).
  change (Z.of_nat (calcsize Ident._FORMAT)) with 16.
  fold (ident_block f). unfold decode_ident.
  destruct (os_error f (trace f ++ [EvRead 16])); [discriminate|].
  destruct (Nat.eqb _ _) eqn:El; [|discriminate]. apply Nat.eqb_eq in El.
  destruct (fields _ _) as [|[m|?] [|[?|k] [|[?|d] [|[?|v] [|[?|o] [|[?|a]
    [|? ?]]]]]]]; try discriminate.
  destruct (Bitness_of_value k); [|discriminate].
  destruct (Endianness_of_value d); [|discriminate].
  unfold ret. intros [= <- <-]. auto.
Qed.

(** What [get_rodata_header] did before the scan when it did not stop
    there. *)
Lemma get_rodata_header_steps (f : fobj) :
  (exists e f', get_rodata_header f = Raise e f'
                /\ prelude f = Raise e f')
  \/ (exists ident f1 h f2 x3 f3 shstr f4 x5 f5 st f6,
        Ident.parse f = Ret ident f1
        /\ accepted_ident ident
        /\ Header.parse (Ident.klass ident) f1 = Ret h f2
        /\ seek (entry_offset h (Header.shstrndx h)) f2 = Ret x3 f3
        /\ SectionHeader.parse (Ident.klass ident) f3 = Ret shstr f4
        /\ seek (SectionHeader.offset shstr) f4 = Ret x5 f5
        /\ read (SectionHeader.size shstr) f5 = Ret st f6
        /\ prelude f = Ret (Ident.klass ident, h, st) f6).
Proof.
  unfold get_rodata_header, prelude, bind, accepted_ident, entry_offset.
  destruct (Ident.parse f) as [ident f1|]; [|left; eauto].
  destruct (bytes_eqb _ _) eqn:Em; cbn [negb]; [|left; eauto].
  destruct (Ident.data ident) eqn:Ed; cbn [Endianness_eqb negb];
    [|left; eauto].
  destruct (Ident.version ident =? 1) eqn:Ev; cbn [negb]; [|left; eauto].
  destruct (Header.parse _ f1) as [h f2|] eqn:E2; [|left; eauto].
  destruct (seek _ f2) as [x3 f3|] eqn:E3; [|left; eauto].
  destruct (SectionHeader.parse _ f3) as [shstr f4|] eqn:E4; [|left; eauto].
  destruct (seek _ f4) as [x5 f5|] eqn:E5; [|left; eauto].
  destruct (read _ f5) as [st f6|] eqn:E6; [|left; eauto].
  right. apply bytes_eqb_eq in Em. apply Z.eqb_eq in Ev.
  exists ident, f1, h, f2, x3, f3, shstr, f4, x5, f5, st, f6.
  repeat split; assumption.
Qed.

Lemma ident_violation_raises (f : fobj) (r : reason) :
  os_error f (trace f ++ [EvRead 16]) = false ->
  List.length (ident_block f) = 16%nat ->
  first_violation tested_order (ident_block f) = Some r ->
  exists f', get_rodata_header f = Raise (ParseError r) f'.
Proof. intros Ho Hl Hv. eexists. now apply ident_rejected. Qed.

Lemma get_rodata_header_ident (f f' : fobj) (sh : SectionHeader.t) :
  get_rodata_header f = Ret sh f' ->
  exists ident f1, Ident.parse f = Ret ident f1 /\ accepted_ident ident.
Proof.
  intros H. destruct (get_rodata_header_steps f)
    as [(e & f1 & E & _) | (ident & f1 & ? & ? & ? & ? & ? & ? & ? & ? & ? & ?
                            & Hp & Ha & _)].
  - congruence.
  - eauto.
Qed.

(** X4. [get_rodata_header] returns a section header only for a file
    whose identification block has its 16 bytes and violates none of
    the conditions: a recognized class and byte order, the magic of the
    format, little-endian order and version 1. *)
Theorem returned_only_for_valid_ident (f f' : fobj) (sh : SectionHeader.t) :
  get_rodata_header f = Ret sh f' ->
  List.length (ident_block f) = 16%nat
  /\ first_violation tested_order (ident_block f) = None
  /\ firstn 4 (ident_block f) = ELF_MAGIC
  /\ ident_byte (ident_block f) 5 = 1
  /\ ident_byte (ident_block f) 6 = 1.
Proof.
  intros H.
  destruct (get_rodata_header_ident _ _ _ H) as (ident & f1 & Hp & _).
  apply Ident_parse_inv in Hp as (Ho & Hl & _ & _).
  assert (Hv : first_violation tested_order (ident_block f) = None).
  { destruct (first_violation tested_order (ident_block f)) as [r|] eqn:V;
      [|reflexivity].
    destruct (ident_violation_raises f r Ho Hl V) as [f2 E]. congruence. }
  split; [exact Hl|]. split; [exact Hv|].
  unfold tested_order, first_violation, check_short, check_class,
    check_byte_order, check_magic, check_big_endian, check_version in Hv.
  destruct (Nat.ltb _ _); [discriminate|].
  destruct (Bitness_of_value _); [|discriminate].
  unfold Endianness_of_value in Hv.
  destruct (ident_byte (ident_block f) 5 =? 1) eqn:E5.
  - destruct (bytes_eqb _ _) eqn:Em; [|discriminate].
    apply bytes_eqb_eq in Em. apply Z.eqb_eq in E5.
    rewrite E5 in Hv. cbn [Z.eqb Pos.eqb] in Hv.
    destruct (ident_byte (ident_block f) 6 =? 1) eqn:E6; [|discriminate].
    apply Z.eqb_eq in E6. auto.
  - destruct (ident_byte (ident_block f) 5 =? 2) eqn:E2; [|discriminate].
    destruct (bytes_eqb _ _); discriminate.
Qed.

Lemma returned_only_for_valid_ident_witness :
  List.length (ident_block rodata_second_file) = 16%nat
  /\ first_violation tested_order (ident_block rodata_second_file) = None
  /\ firstn 4 (ident_block rodata_second_file) = ELF_MAGIC
  /\ ident_byte (ident_block rodata_second_file) 5 = 1
  /\ ident_byte (ident_block rodata_second_file) 6 = 1.
Proof.
  eapply (returned_only_for_valid_ident rodata_second_file).
  vm_compute. reflexivity.
Defined.

Lemma visit_ret (b : Bitness) (off x : Z) (f f1 f2 : fobj)
    (sh : SectionHeader.t) :
  seek off f = Ret x f1 ->
  SectionHeader.parse b f1 = Ret sh f2 ->
  entry_at (content f) b off = Some sh
  /\ content f2 = content f
  /\ trace f2 = trace f ++ [EvSeek off; EvRead (sh_size b)].
Proof.
  intros Hs Hp. apply seek_ret in Hs as [Hr ->].
  apply SectionHeader_parse_ret in Hp as (L & D & ->).
  cbn [content pos set_pos log] in L, D.
  pose proof (sh_size_pos b) as Hsz.
  split; [|split].
  - unfold entry_at.
    assert (E : off + sh_size b <= Z.of_nat (List.length (content f))).
    { apply (slice_length (content f) off (sh_size b)); [lia | lia |].
      rewrite L. reflexivity. }
    apply Z.leb_le in E. rewrite E.
    destruct (0 <=? off) eqn:E0; [exact D | apply Z.leb_gt in E0; lia].
  - reflexivity.
  - cbn. now rewrite <- app_assoc.
Qed.

(** What the scan found when it returned. *)
Lemma scan_ret b h st (n : nat) (i : Z) (f f' : fobj) (sh : SectionHeader.t) :
  scan b h st n i f = Ret sh f' ->
  exists k,
    i <= k < i + Z.of_nat n
    /\ rodata_entry (content f) b h st k sh
    /\ (forall j, i <= j < k -> other_entry (content f) b h st j)
    /\ trace f' = trace f ++ visits b h i (S (Z.to_nat (k - i))).
Proof.
  revert i f; induction n as [|n IH]; intros i f; cbn [scan];
    [discriminate|].
  unfold bind. fold (entry_offset h i).
  destruct (seek (entry_offset h i) f) as [x f1|] eqn:Es; [|discriminate].
  destruct (SectionHeader.parse b f1) as [sh0 f2|] eqn:Ep; [|discriminate].
  destruct (visit_ret _ _ _ _ _ _ _ Es Ep) as (He & Hc & Ht).
  rewrite section_name_eq.
  destruct (bytes_eqb _ rodata) eqn:En.
  - intros [= <- <-]. exists i. apply bytes_eqb_eq in En.
    split; [lia|]. split; [now split|]. split; [intros j Hj; lia|].
    rewrite Z.sub_diag. exact Ht.
  - intros H. apply IH in H as (k & Hk & Hr & Ho & Htr).
    rewrite Hc in Hr, Ho. apply bytes_eqb_neq in En.
    exists k. split; [lia|]. split; [exact Hr|]. split.
    + intros j Hj. destruct (Z.eq_dec j i) as [->|Hne].
      * exists sh0. now split.
      * apply Ho. lia.
    + rewrite Htr, Ht, <- app_assoc. f_equal.
      replace (Z.to_nat (k - i)) with (S (Z.to_nat (k - (i + 1)))) by lia.
      reflexivity.
Qed.

(** X5. When [get_rodata_header] returns a section header, on any
    device, the file says so: the primary header is decoded from the
    bytes that follow the identification block; the entry of index
    [shstrndx] is in the file and the string table is the bytes of the
    range it describes, clipped at the end of the file; and the
    returned header is the entry of lowest index, below [shnum], that
    the string table names .rodata, every entry before it being in the
    file. *)
Theorem get_rodata_header_sound (f f' : fobj) (sh : SectionHeader.t) :
  get_rodata_header f = Ret sh f' ->
  0 <= pos f ->
  exists ident h shstr st k,
    decode_ident (ident_block f) = Some ident
    /\ decode_header (Ident.klass ident)
         (slice (content f) (pos f + 16) (header_size (Ident.klass ident)))
       = Some h
    /\ entry_at (content f) (Ident.klass ident)
         (entry_offset h (Header.shstrndx h)) = Some shstr
    /\ st = slice (content f) (SectionHeader.offset shstr)
              (SectionHeader.size shstr)
    /\ 0 <= k < Header.shnum h
    /\ rodata_entry (content f) (Ident.klass ident) h st k sh
    /\ (forall j, 0 <= j < k ->
                  other_entry (content f) (Ident.klass ident) h st j).
Proof.
  intros H Hpos.
  destruct (get_rodata_header_steps f)
    as [(e & f1 & E & _)
       | (ident & f1 & h & f2 & x3 & f3 & shstr & f4 & x5 & f5 & st & f6
          & Hi & Ha & Hh & Hs3 & Hp4 & Hs5 & Hr6 & Hpre)]; [congruence|].
  rewrite get_rodata_header_prelude, Hpre in H.
  apply scan_ret in H as (k & Hk & Hr & Ho & _).
  pose proof (prelude_same_file _ _ _ Hpre) as (Hc6 & _).
  rewrite Hc6 in Hr, Ho.
  apply Ident_parse_inv in Hi as (_ & Hl & Hd & ->).
  apply Header_parse_ret in Hh as (_ & Hdh & ->).
  destruct (visit_ret _ _ _ _ _ _ _ Hs3 Hp4) as (He & Hc4 & _).
  apply seek_ret in Hs5 as [Hr5 ->].
  assert (Hsz : 0 <= SectionHeader.size shstr).
  { cbn [content after_read set_pos log] in He.
    now apply entry_at_nonneg in He. }
  apply read_ret in Hr6 as (_ & _ & -> & _); [|exact Hsz].
  cbn [content pos after_read set_pos log] in *.
  exists ident, h, shstr.
  exists (slice (content f4) (SectionHeader.offset shstr)
            (SectionHeader.size shstr)), k.
  assert (Hp16 : pos f + Z.of_nat (List.length (slice (content f) (pos f) 16))
                 = pos f + 16).
  { fold (ident_block f). rewrite Hl. reflexivity. }
  rewrite Hp16 in Hdh. rewrite Hc4 in *.
  repeat split; try assumption; try apply Hr; lia.
Qed.

Lemma get_rodata_header_sound_witness :
  exists ident h shstr st k,
    decode_ident (ident_block rodata_second_file) = Some ident
    /\ decode_header (Ident.klass ident)
         (slice (content rodata_second_file) (pos rodata_second_file + 16)
            (header_size (Ident.klass ident)))
       = Some h
    /\ entry_at (content rodata_second_file) (Ident.klass ident)
         (entry_offset h (Header.shstrndx h)) = Some shstr
    /\ st = slice (content rodata_second_file) (SectionHeader.offset shstr)
              (SectionHeader.size shstr)
    /\ 0 <= k < Header.shnum h
    /\ rodata_entry (content rodata_second_file) (Ident.klass ident) h st k
         (SectionHeader.mk 1 1 0 0 4096 0 0 0 1 0)
    /\ (forall j, 0 <= j < k ->
                  other_entry (content rodata_second_file)
                    (Ident.klass ident) h st j).
Proof.
  eapply (get_rodata_header_sound rodata_second_file).
  - vm_compute. reflexivity.
  - vm_compute. discriminate.
Defined.

(** ** The exceptions that can be raised *)

Lemma raises_weaken {A} (m : M A) (P Q : exn -> Prop) :
  (forall e, P e -> Q e) -> raises_only m P -> raises_only m Q.
Proof. intros HPQ H f e f' E. apply HPQ. exact (H f e f' E). Qed.

Lemma raises_ret {A} (a : A) P : raises_only (ret a) P.
Proof. intros f e f'. discriminate. Qed.

Lemma raises_raise {A} (e : exn) (P : exn -> Prop) :
  P e -> raises_only (@raise A e) P.
Proof. intros H f e' f'. now intros [= <- _]. Qed.

Lemma raises_bind {A B} (m : M A) (k : A -> M B) P :
  raises_only m P -> (forall a, raises_only (k a) P) ->
  raises_only (bind m k) P.
Proof.
  intros Hm Hk f e f'. unfold bind.
  destruct (m f) as [a f1|e1 f1] eqn:E.
  - apply Hk.
  - intros [= <- _]. exact (Hm f e1 f1 E).
Qed.

Lemma raises_seek (off : Z) :
  raises_only (seek off) (fun e => e = ValueError \/ e = OSError).
Proof.
  intros f e f'. unfold seek.
  repeat match goal with
         | |- context [if ?c then _ else _] => destruct c
         end; intros [= <- _]; auto.
Qed.

Lemma raises_read (size : Z) :
  raises_only (read size)
    (fun e => e = OverflowError \/ e = MemoryError \/ e = OSError).
Proof.
  intros f e f'. unfold read.
  repeat match goal with
         | |- context [if ?c then _ else _] => destruct c
         end; intros [= <- _]; auto.
Qed.

Lemma raises_mmap (length offset : Z) :
  raises_only (mmap length offset)
    (fun e => e = OverflowError \/ e = ValueError \/ e = OSError).
Proof.
  intros f e f'. unfold mmap.
  repeat match goal with
         | |- context [if ?c then _ else _] => destruct c
         end; intros [= <- _]; auto.
Qed.

Lemma raises__unpack (fmt : list code) :
  0 <= Z.of_nat (calcsize fmt) <= 64 ->
  raises_only (_unpack fmt) layout_exn.
Proof.
  intros Hs f e f'. rewrite _unpack_run by assumption. cbv zeta.
  unfold layout_exn.
  destruct (os_error _ _); [intros [= <- _]; auto|].
  destruct (Nat.eqb _ _); [discriminate | intros [= <- _]; auto].
Qed.

Lemma raises_Ident_parse :
  raises_only Ident.parse
    (fun e => layout_exn e
              \/ (exists k, e = ParseError (InvalidBitness k))
              \/ (exists d, e = ParseError (InvalidEndianness d))).
Proof.
  intros f e f'. unfold Ident.parse, bind.
  destruct (_unpack Ident._FORMAT f) as [vals f1|e1 f1] eqn:E.
  - apply _unpack_ret in E; [|apply calcsize_small; simpl; tauto].
    destruct E as (_ & -> & _).
    cbn [fields Ident._FORMAT].
    destruct (Bitness_of_value _); [|intros [= <- _]; eauto].
    destruct (Endianness_of_value _); [discriminate|intros [= <- _]; eauto].
  - intros [= <- _]. left.
    apply (raises__unpack Ident._FORMAT) in E;
      [exact E | apply calcsize_small; simpl; tauto].
Qed.

Lemma raises_Header_parse (b : Bitness) :
  raises_only (Header.parse b) layout_exn.
Proof.
  intros f e f'. unfold Header.parse, bind.
  destruct (_unpack (Header._FORMATS b) f) as [vals f1|e1 f1] eqn:E.
  - apply _unpack_ret in E; [|destruct b; apply calcsize_small; simpl; tauto].
    destruct E as (_ & -> & _).
    destruct b; cbn [fields Header._FORMATS]; discriminate.
  - intros [= <- _].
    apply (raises__unpack (Header._FORMATS b)) in E;
      [exact E | destruct b; apply calcsize_small; simpl; tauto].
Qed.

Lemma raises_SectionHeader_parse (b : Bitness) :
  raises_only (SectionHeader.parse b) layout_exn.
Proof.
  intros f e f'. unfold SectionHeader.parse, bind.
  destruct (_unpack (SectionHeader._FORMATS b) f) as [vals f1|e1 f1] eqn:E.
  - apply _unpack_ret in E; [|destruct b; apply calcsize_small; simpl; tauto].
    destruct E as (_ & -> & _).
    destruct b; cbn [fields SectionHeader._FORMATS]; discriminate.
  - intros [= <- _].
    apply (raises__unpack (SectionHeader._FORMATS b)) in E;
      [exact E | destruct b; apply calcsize_small; simpl; tauto].
Qed.

Lemma raises_section_name (st : bytes) (name : Z) P :
  raises_only (section_name st name) P.
Proof. intros f e f'. rewrite section_name_eq. discriminate. Qed.

Lemma layout_header_exn (e : exn) : layout_exn e -> header_exn e.
Proof. intros [-> | ->]; cbn; split; discriminate. Qed.

Lemma seek_header_exn (e : exn) : e = ValueError \/ e = OSError -> header_exn e.
Proof. intros [-> | ->]; exact I. Qed.

Lemma raises_scan b h st (n : nat) (i : Z) :
  raises_only (scan b h st n i) header_exn.
Proof.
  revert i; induction n as [|n IH]; intros i; cbn [scan].
  - apply raises_raise. cbn. split; discriminate.
  - apply raises_bind.
    { eapply raises_weaken; [apply seek_header_exn | apply raises_seek]. }
    intros _. apply raises_bind.
    { eapply raises_weaken;
        [apply layout_header_exn | apply raises_SectionHeader_parse]. }
    intros sh. apply raises_bind; [apply raises_section_name|].
    intros nm. destruct (bytes_eqb nm rodata); [apply raises_ret | apply IH].
Qed.

Lemma raises_get_rodata_header : raises_only get_rodata_header header_exn.
Proof.
  unfold get_rodata_header. apply raises_bind.
  { eapply raises_weaken; [|apply raises_Ident_parse].
    intros e [H | [[k ->] | [d ->]]];
      [now apply layout_header_exn | |]; cbn; split; discriminate. }
  intros ident.
  destruct (negb _); [apply raises_raise; cbn; split; discriminate|].
  destruct (negb _); [apply raises_raise; cbn; split; discriminate|].
  destruct (negb _); [apply raises_raise; cbn; split; discriminate|].
  apply raises_bind.
  { eapply raises_weaken;
      [apply layout_header_exn | apply raises_Header_parse]. }
  intros h. apply raises_bind.
  { eapply raises_weaken; [apply seek_header_exn | apply raises_seek]. }
  intros _. apply raises_bind.
  { eapply raises_weaken;
      [apply layout_header_exn | apply raises_SectionHeader_parse]. }
  intros shstr. apply raises_bind.
  { eapply raises_weaken; [apply seek_header_exn | apply raises_seek]. }
  intros _. apply raises_bind.
  { eapply raises_weaken; [|apply raises_read].
    intros e [-> | [-> | ->]]; exact I. }
  intros st. apply raises_scan.
Qed.

Lemma re_search_some (r : regex) (s : bytes) (caps : list bytes) :
  re_search r s = Some caps ->
  exists i, match_here r (skipn i s) = Some caps.
Proof.
  induction s as [|c s IH]; cbn [re_search].
  - destruct (match_here r []) eqn:E; [|discriminate].
    intros [= <-]. now exists 0%nat.
  - destruct (match_here r (c :: s)) eqn:E.
    + intros [= <-]. now exists 0%nat.
    + intros H. destruct (IH H) as [i Hi]. now exists (S i).
Qed.

(** What [find_versions] does, whatever the bytes. *)
Lemma find_versions_cases (region : bytes) (f : fobj) :
  find_versions region f = Raise (ParseError NoMatch) f
  \/ exists i w1 w2,
       occurs_at region i w1 w2
       /\ find_versions region f
          = Ret (mkVersions (string_of_list_byte w1)
                            (string_of_list_byte w2)) f.
Proof.
  destruct (re_search pattern region) as [caps|] eqn:E.
  - right. destruct (re_search_some _ _ _ E) as [i Hi].
    rewrite match_here_pattern in Hi.
    destruct (marker_at (skipn i region)) as [[w1 w2]|] eqn:Em;
      [|discriminate].
    injection Hi as <-.
    apply marker_at_sound, occurs_at_skipn in Em.
    exists i, w1, w2. split; [exact Em|].
    destruct Em as ([_ H1] & [_ H2] & _).
    now apply find_versions_match.
  - left. now apply find_versions_no_match.
Qed.

Lemma raises__parse_from_path : raises_only _parse_from_path pipeline_exn.
Proof.
  unfold _parse_from_path. apply raises_bind.
  { eapply raises_weaken; [|apply raises_get_rodata_header].
    intros e; destruct e; cbn; tauto. }
  intros sh. apply raises_bind.
  - intros f e f'. unfold try_except.
    destruct (mmap _ _ f) as [region f1|e1 f1] eqn:E; [discriminate|].
    apply raises_mmap in E.
    destruct E as [-> | [-> | ->]]; cbn; intros [= <- _]; cbn;
      try exact I; discriminate.
  - intros region f e f'.
    destruct (find_versions_cases region f) as [-> | (i & w1 & w2 & _ & ->)];
      [|discriminate].
    intros [= <- _]. cbn. discriminate.
Qed.

(** X6. The only exceptions that [_parse_from_path] can raise, on any
    file, device and amount of memory, are [ParseError], other than the
    one that wraps [UnicodeDecodeError], and the [OSError], [ValueError],
    [OverflowError] and [MemoryError] of the file calls ([f.seek],
    [f.read] of the string table, [mmap.mmap]); up to the location of
    the section, [get_rodata_header] raises the same except "No match
    in .rodata".  Unpacking the decoded tuples, indexing the pieces of
    a name and taking the groups of the match never fail. *)
Theorem exceptions_raised (f f' : fobj) (e : exn) :
  (get_rodata_header f = Raise e f' -> header_exn e)
  /\ (_parse_from_path f = Raise e f' -> pipeline_exn e).
Proof.
  split.
  - apply raises_get_rodata_header.
  - apply raises__parse_from_path.
Qed.

(** X7. On any bytes, the search of the versions either raises the
    [ParseError] "No match in .rodata" or returns the two versions of
    an occurrence of the marker pattern in these bytes, both non-empty
    and made of digits and periods; it never raises the [ParseError]
    that wraps [UnicodeDecodeError]. *)
Theorem find_versions_total (region : bytes) (f : fobj) :
  find_versions region f = Raise (ParseError NoMatch) f
  \/ exists i w1 w2,
       occurs_at region i w1 w2
       /\ find_versions region f
          = Ret (mkVersions (string_of_list_byte w1)
                            (string_of_list_byte w2)) f.
Proof. apply find_versions_cases. Qed.

(** ** Files of the 32-bit class *)

Lemma scan32 h st (n : nat) (i : Z) (f f' : fobj) (e : exn) :
  nominal f -> 0 <= i ->
  i + Z.of_nat n <= 65536 ->
  unsigned 4 (Header.shoff h) -> unsigned 2 (Header.shentsize h) ->
  scan x32 h st n i f = Raise e f' ->
  is_ParseError e = true.
Proof.
  intros Hn Hi Hb Hoff Hent. revert i f Hn Hi Hb.
  induction n as [|n IH]; intros i f Hn Hi Hb; cbn [scan].
  - now intros [= <- _].
  - unfold bind.
    assert (Hr : 0 <= Header.shoff h + i * Header.shentsize h <= ssize_max).
    { unfold unsigned in *.
      change (256 ^ Z.of_nat 4) with 4294967296 in Hoff.
      change (256 ^ Z.of_nat 2) with 65536 in Hent.
      unfold ssize_max. change (2 ^ 63 - 1) with 9223372036854775807.
      nia. }
    rewrite seek_ok by assumption.
    set (f1 := set_pos _ _).
    assert (Hn1 : nominal f1) by (intros t; apply Hn).
    destruct (SectionHeader.parse x32 f1) as [sh f2|e1 f2] eqn:Ep.
    + pose proof (stable_SectionHeader_parse x32 f1) as S.
      rewrite Ep in S. cbn [final] in S.
      rewrite section_name_eq.
      destruct (bytes_eqb _ rodata); [discriminate|].
      apply IH; [exact (same_file_nominal _ _ S Hn1) | lia | lia].
    + intros [= <- _]. apply raises_SectionHeader_parse in Ep.
      now destruct Ep as [-> | ->].
Qed.

Lemma class32_header_exn (f f' : fobj) (ident : Ident.t) (f1 : fobj)
    (e : exn) :
  nominal f ->
  Ident.parse f = Ret ident f1 -> Ident.klass ident = x32 ->
  get_rodata_header f = Raise e f' ->
  is_ParseError e = true \/ e = MemoryError.
Proof.
  intros Hn Hi Hk. unfold get_rodata_header, bind. rewrite Hi, Hk.
  pose proof (stable_Ident_parse f) as S1. rewrite Hi in S1.
  cbn [final] in S1.
  pose proof (same_file_nominal _ _ S1 Hn) as Hn1.
  destruct (negb _); [now intros [= <- _]; left|].
  destruct (negb _); [now intros [= <- _]; left|].
  destruct (negb _); [now intros [= <- _]; left|].
  destruct (Header.parse x32 f1) as [h f2|e2 f2] eqn:Eh.
  2:{ intros [= <- _]. apply raises_Header_parse in Eh.
      now destruct Eh as [-> | ->]; left. }
  pose proof (stable_Header_parse x32 f1) as S2. rewrite Eh in S2.
  cbn [final] in S2.
  pose proof (same_file_nominal _ _ S2 Hn1) as Hn2.
  apply Header_parse_unsigned in Eh.
  destruct Eh as (_ & _ & _ & _ & _ & Hoff & _ & _ & _ & _ & Hent & Hnum
                  & Hndx).
  cbn [word_bytes] in Hoff.
  assert (Hr : 0 <= Header.shoff h + Header.shstrndx h * Header.shentsize h
               <= ssize_max).
  { unfold unsigned in *.
    change (256 ^ Z.of_nat 4) with 4294967296 in Hoff.
    change (256 ^ Z.of_nat 2) with 65536 in Hent, Hndx.
    unfold ssize_max. change (2 ^ 63 - 1) with 9223372036854775807.
    nia. }
  rewrite seek_ok by assumption.
  set (f3 := set_pos _ _).
  assert (Hn3 : nominal f3) by (intros t; apply Hn2).
  destruct (SectionHeader.parse x32 f3) as [shstr f4|e4 f4] eqn:Es.
  2:{ intros [= <- _]. apply raises_SectionHeader_parse in Es.
      now destruct Es as [-> | ->]; left. }
  pose proof (stable_SectionHeader_parse x32 f3) as S4. rewrite Es in S4.
  cbn [final] in S4.
  pose proof (same_file_nominal _ _ S4 Hn3) as Hn4.
  apply SectionHeader_parse_unsigned in Es.
  destruct Es as (_ & _ & _ & _ & Hso & Hss & _).
  cbn [word_bytes] in Hso, Hss. unfold unsigned in Hso, Hss.
  change (256 ^ Z.of_nat 4) with 4294967296 in Hso, Hss.
  assert (Hmax : 4294967296 < bytes_max) by (vm_compute; reflexivity).
  assert (Hmax' : bytes_max < ssize_max) by (vm_compute; reflexivity).
  rewrite seek_ok by (auto; lia).
  set (f5 := set_pos _ _).
  assert (Hn5 : nominal f5) by (intros t; apply Hn4).
  destruct (Z_le_gt_dec (SectionHeader.size shstr) (read_limit f5))
    as [Hfit | Hbig].
  2:{ rewrite read_MemoryError by lia. intros [= <- _]. now right. }
  rewrite read_ok by (try apply Hn5; lia).
  intros Hs. left. revert Hs.
  apply scan32; try assumption.
  - lia.
  - unfold unsigned in Hnum.
    change (256 ^ Z.of_nat 2) with 65536 in Hnum. lia.
Qed.

(** The second case is reached: a string table announced larger than
    what the machine allocates. *)
Lemma class32_MemoryError_reached :
  exists f', get_rodata_header huge_strtab32 = Raise MemoryError f'.
Proof. eexists. vm_compute. reflexivity. Qed.

(** X8. For a file of the 32-bit class on a device without errors, where
    the signed size of the platform has 64 bits, [get_rodata_header]
    raises [ParseError], or [MemoryError] when the string table that the
    file announces cannot be allocated, and nothing else: every offset
    that it seeks is below 2^33 and the size that it reads below 2^32,
    whatever the header fields hold. *)
Theorem class32_only_ParseError (f f' f1 : fobj) (ident : Ident.t) (e : exn) :
  nominal f ->
  Ident.parse f = Ret ident f1 ->
  Ident.klass ident = x32 ->
  get_rodata_header f = Raise e f' ->
  (exists r, e = ParseError r) \/ e = MemoryError.
Proof.
  intros Hn Hi Hk H.
  destruct (class32_header_exn f f' ident f1 e Hn Hi Hk H) as [Hp | ->];
    [left | now right].
  destruct e; try discriminate Hp. eauto.
Qed.

Lemma class32_only_ParseError_witness :
  (exists r, ParseError NoRodata = ParseError r)
  \/ ParseError NoRodata = MemoryError.
Proof.
  eapply (class32_only_ParseError text_only32).
  - intros t. reflexivity.
  - vm_compute. reflexivity.
  - reflexivity.
  - vm_compute. reflexivity.
Defined.

(** ** From the section to the versions *)

Lemma _parse_from_path_ret (f f' : fobj) (v : Versions) :
  _parse_from_path f = Ret v f' ->
  exists sh f1 region,
    get_rodata_header f = Ret sh f1
    /\ mmap (SectionHeader.size sh) (SectionHeader.offset sh) f1
       = Ret region f'
    /\ find_versions region f' = Ret v f'.
Proof.
  unfold _parse_from_path, bind, try_except.
  destruct (get_rodata_header f) as [sh f1|] eqn:Eg; [|discriminate].
  destruct (mmap _ _ f1) as [region f2|e f2] eqn:Em.
  - intros H. exists sh, f1, region.
    destruct (find_versions_cases region f2) as [E | (i & w1 & w2 & _ & E)];
      rewrite E in H; [discriminate|].
    injection H as <- <-. auto.
  - destruct (is_OSError e); discriminate.
Qed.

Lemma mmap_ret (length offset : Z) (f f' : fobj) (region : bytes) :
  mmap length offset f = Ret region f' ->
  0 <= offset /\ exists n, region = slice (content f) offset n.
Proof.
  unfold mmap. cbn [log content].
  destruct (_ || _); [discriminate|].
  destruct (length <? 0); cbn [orb]; [discriminate|].
  destruct (offset <? 0) eqn:Eo; [discriminate|]. apply Z.ltb_ge in Eo.
  repeat match goal with
         | |- context [if ?c then _ else _] => destruct c
         end; try discriminate; intros [= <- _]; eauto.
Qed.

Lemma skipn_firstn_prefix (i n : nat) (l y : bytes) (rest : bytes) :
  skipn i (firstn n l) = y ++ rest ->
  exists rest', skipn i l = y ++ rest'.
Proof.
  intros H.
  exists (rest ++ skipn (i - List.length (firstn n l)) (skipn n l)).
  transitivity (skipn i (firstn n l ++ skipn n l)).
  - now rewrite firstn_skipn.
  - now rewrite skipn_app, H, <- app_assoc.
Qed.

Lemma occurs_in_slice (bs : bytes) (off n : Z) (i : nat) (v1 v2 : bytes) :
  occurs_at (slice bs off n) i v1 v2 ->
  occurs_at bs (i + Z.to_nat off) v1 v2.
Proof.
  intros (H1 & H2 & rest & H). split; [exact H1|]. split; [exact H2|].
  unfold slice in H.
  replace (QT ++ v1 ++ CH ++ v2 ++ rest)
    with ((QT ++ v1 ++ CH ++ v2) ++ rest) in H
    by (now rewrite <- !app_assoc).
  apply skipn_firstn_prefix in H as [rest' H].
  rewrite skipn_skipn in H. exists rest'. rewrite H.
  now rewrite <- !app_assoc.
Qed.

(** X9. Whatever the file and the device, when [parse_webenginecore]
    returns versions, they are written in the file: its bytes hold an
    occurrence ["QtWebEngine/" w1 " Chrome/" w2] of the marker pattern,
    with [w1] and [w2] non-empty and made of digits and periods, and
    the result is the pair of [w1] and [w2]. *)
Theorem versions_occur_in_file (d : disk_file) (v : Versions) :
  parse_webenginecore (Some d) = Returns (Some v) ->
  exists i w1 w2,
    occurs_at (df_content d) i w1 w2
    /\ v = mkVersions (string_of_list_byte w1) (string_of_list_byte w2).
Proof.
  unfold parse_webenginecore, try_except, bind.
  destruct (_parse_from_path (path_open d)) as [v0 f'|e f'] eqn:E.
  2:{ destruct (is_ParseError e); discriminate. }
  intros [= <-].
  apply _parse_from_path_ret in E as (sh & f1 & region & Hg & Hm & Hf).
  pose proof (stable_get_rodata_header (path_open d)) as S.
  rewrite Hg in S. destruct S as (Hc & _). cbn [final] in Hc.
  apply mmap_ret in Hm as (Ho & n & ->). rewrite Hc in Hf.
  cbn [path_open content] in Hf.
  destruct (find_versions_cases
              (slice (df_content d) (SectionHeader.offset sh) n) f')
    as [E | (i & w1 & w2 & Hocc & E)]; rewrite E in Hf; [discriminate|].
  injection Hf as <-.
  apply occurs_in_slice in Hocc. eauto.
Qed.

Lemma versions_occur_in_file_witness :
  exists i w1 w2,
    occurs_at (df_content marker_lib) i w1 w2
    /\ claimed_versions
       = mkVersions (string_of_list_byte w1) (string_of_list_byte w2).
Proof.
  apply (versions_occur_in_file marker_lib claimed_versions).
  vm_compute. reflexivity.
Defined.

Lemma get_rodata_header_nonneg (f f' : fobj) (sh : SectionHeader.t) :
  get_rodata_header f = Ret sh f' ->
  0 <= SectionHeader.offset sh /\ 0 <= SectionHeader.size sh.
Proof.
  rewrite get_rodata_header_prelude.
  destruct (prelude f) as [[[b h] st] f1|]; [|discriminate].
  intros H. apply scan_ret in H as (k & _ & [He _] & _).
  now apply entry_at_nonneg in He.
Qed.

(** X10. When the located section has size 0 and starts inside the
    file, on a multiple of the allocation granularity, the mapping is
    not empty: the bytes searched for the versions are all the bytes of
    the file from the offset of the section to the end of the file. *)
Theorem empty_section_maps_rest (f f1 : fobj) (sh : SectionHeader.t) :
  nominal f -> file_size f <= ssize_max ->
  get_rodata_header f = Ret sh f1 ->
  SectionHeader.size sh = 0 ->
  SectionHeader.offset sh < file_size f ->
  SectionHeader.offset sh mod granularity f = 0 ->
  _parse_from_path f
  = find_versions (skipn (Z.to_nat (SectionHeader.offset sh)) (content f))
      (log (EvMmap 0 (SectionHeader.offset sh)) f1).
Proof.
  intros Hn Hs Hg H0 Hlt Hal.
  destruct (get_rodata_header_nonneg _ _ _ Hg) as [Ho _].
  pose proof (stable_get_rodata_header f) as S. rewrite Hg in S.
  cbn [final] in S. pose proof (same_file_nominal _ _ S Hn) as Hn1.
  pose proof (same_file_size _ _ S) as Hsz. destruct S as (Hc & _ & Hgr & _).
  unfold _parse_from_path, bind, try_except. rewrite Hg, H0.
  unfold mmap. cbn [log trace os_error content granularity].
  change (file_size (log (EvMmap 0 (SectionHeader.offset sh)) f1))
    with (file_size f1).
  rewrite Hsz, Hgr, Hal, Hn1, Hc.
  destruct (ssize_max <? 0) eqn:E0; [discriminate E0|].
  destruct (ssize_max <? SectionHeader.offset sh) eqn:E1;
    [apply Z.ltb_lt in E1; lia|].
  destruct (SectionHeader.offset sh <? 0) eqn:E2;
    [apply Z.ltb_lt in E2; lia|].
  destruct (file_size f =? 0) eqn:E3; [apply Z.eqb_eq in E3; lia|].
  destruct (file_size f <=? SectionHeader.offset sh) eqn:E4;
    [apply Z.leb_le in E4; lia|].
  cbn. unfold slice. rewrite firstn_all2; [reflexivity|].
  rewrite length_skipn. unfold file_size. lia.
Qed.

Lemma empty_section_maps_rest_witness :
  exists f1,
    _parse_from_path (path_open empty_section_lib)
    = find_versions (skipn 0 (df_content empty_section_lib))
        (log (EvMmap 0 0) f1)
    /\ parse_webenginecore (Some empty_section_lib)
       = Returns (Some claimed_versions).
Proof.
  eexists. split; [|vm_compute; reflexivity].
  eapply (empty_section_maps_rest (path_open empty_section_lib) _
            (SectionHeader.mk 1 1 0 0 0 0 0 0 1 0)).
  - intros t. reflexivity.
  - vm_compute. discriminate.
  - vm_compute. reflexivity.
  - reflexivity.
  - vm_compute. reflexivity.
  - reflexivity.
Defined.

(** X11. When the located section is not empty and its range does not
    lie inside the file, the mapping raises [ValueError], or
    [OverflowError] for an offset or a size that does not fit the
    platform; it is not an [OSError], so it is not wrapped, and it
    leaves [parse_webenginecore]. *)
Theorem section_outside_file_propagates (d : disk_file) (f1 : fobj)
    (sh : SectionHeader.t) :
  get_rodata_header (path_open d) = Ret sh f1 ->
  0 < SectionHeader.size sh ->
  file_size (path_open d) < SectionHeader.offset sh + SectionHeader.size sh ->
  exists e,
    parse_webenginecore (Some d) = Propagates e
    /\ (e = ValueError \/ e = OverflowError).
Proof.
  intros Hg Hpos Hout.
  pose proof (stable_get_rodata_header (path_open d)) as S. rewrite Hg in S.
  cbn [final] in S. pose proof (same_file_size _ _ S) as Hsz.
  assert (Hm : exists e f2,
             mmap (SectionHeader.size sh) (SectionHeader.offset sh) f1
             = Raise e f2 /\ (e = ValueError \/ e = OverflowError)).
  { unfold mmap.
    change (file_size (log (EvMmap (SectionHeader.size sh)
                                   (SectionHeader.offset sh)) f1))
      with (file_size f1).
    rewrite Hsz.
    destruct (_ || _); [eauto|].
    destruct (_ || _); [eauto|].
    destruct (SectionHeader.size sh =? 0) eqn:E0;
      [apply Z.eqb_eq in E0; lia|].
    destruct (file_size (path_open d) <? SectionHeader.offset sh) eqn:E1;
      cbn [orb]; [eauto|].
    destruct (file_size (path_open d) - SectionHeader.offset sh
              <? SectionHeader.size sh) eqn:E2; [eauto|].
    apply Z.ltb_ge in E2. lia. }
  destruct Hm as (e & f2 & Hm & He). exists e. split; [|exact He].
  apply (parse_webenginecore_propagates d e f2).
  - unfold _parse_from_path, bind, try_except. rewrite Hg, Hm.
    now destruct He as [-> | ->].
  - now destruct He as [-> | ->].
Qed.

Lemma section_outside_file_propagates_witness :
  exists e,
    parse_webenginecore (Some section_past_end_lib) = Propagates e
    /\ (e = ValueError \/ e = OverflowError).
Proof.
  eapply (section_outside_file_propagates section_past_end_lib).
  - vm_compute. reflexivity.
  - vm_compute. reflexivity.
  - vm_compute. reflexivity.
Defined.

(** X12. When the located section is not empty, lies inside the file
    and does not start on a multiple of the allocation granularity, the
    mapping fails with [OSError], which is wrapped, and
    [parse_webenginecore] returns [None]. *)
Theorem unaligned_section_gives_none (d : disk_file) (f1 : fobj)
    (sh : SectionHeader.t) :
  get_rodata_header (path_open d) = Ret sh f1 ->
  file_size (path_open d) <= ssize_max ->
  0 < SectionHeader.size sh ->
  SectionHeader.offset sh + SectionHeader.size sh <= file_size (path_open d) ->
  SectionHeader.offset sh mod df_granularity d <> 0 ->
  parse_webenginecore (Some d) = Returns None.
Proof.
  intros Hg Hs Hpos Hin Hal.
  destruct (get_rodata_header_nonneg _ _ _ Hg) as [Ho _].
  pose proof (stable_get_rodata_header (path_open d)) as S. rewrite Hg in S.
  cbn [final] in S. pose proof (same_file_size _ _ S) as Hsz.
  destruct S as (_ & _ & Hgr & _).
  apply (parse_webenginecore_caught d FromOSError
           (log (EvMmap (SectionHeader.size sh) (SectionHeader.offset sh)) f1)).
  unfold _parse_from_path, bind, try_except. rewrite Hg.
  unfold mmap. cbn [log trace os_error content granularity].
  change (file_size (log (EvMmap (SectionHeader.size sh)
                                 (SectionHeader.offset sh)) f1))
    with (file_size f1).
  rewrite Hsz, Hgr. cbn [path_open granularity].
  destruct (ssize_max <? SectionHeader.size sh) eqn:E0;
    [apply Z.ltb_lt in E0; lia|].
  destruct (ssize_max <? SectionHeader.offset sh) eqn:E1;
    [apply Z.ltb_lt in E1; lia|].
  destruct (SectionHeader.size sh <? 0) eqn:E2;
    [apply Z.ltb_lt in E2; lia|].
  destruct (SectionHeader.offset sh <? 0) eqn:E3;
    [apply Z.ltb_lt in E3; lia|].
  destruct (SectionHeader.size sh =? 0) eqn:E4;
    [apply Z.eqb_eq in E4; lia|].
  destruct (file_size (path_open d) <? SectionHeader.offset sh) eqn:E5;
    [apply Z.ltb_lt in E5; lia|].
  destruct (file_size (path_open d) - SectionHeader.offset sh
            <? SectionHeader.size sh) eqn:E6;
    [apply Z.ltb_lt in E6; lia|].
  apply Z.eqb_neq in Hal. rewrite Hal. reflexivity.
Qed.

Lemma unaligned_section_gives_none_witness :
  parse_webenginecore (Some unaligned_lib) = Returns None.
Proof.
  eapply (unaligned_section_gives_none unaligned_lib).
  - vm_compute. reflexivity.
  - vm_compute. discriminate.
  - vm_compute. reflexivity.
  - vm_compute. discriminate.
  - vm_compute. discriminate.
Defined.

(** ** Names in a string table *)

Lemma until_nul_app (name post : bytes) :
  ~ In x00 name ->
  until_nul (name ++ x00 :: post) = name /\ until_nul name = name.
Proof.
  induction name as [|c name IH]; intros Hn.
  - split; reflexivity.
  - cbn [app until_nul].
    destruct (Byte.eqb c x00) eqn:E.
    + apply Byte.byte_dec_bl in E. subst c. exfalso. apply Hn. now left.
    + destruct IH as [-> ->]; [|auto]. intros H. apply Hn. now right.
Qed.

Lemma slice_from_app (pre s : bytes) :
  slice_from (pre ++ s) (Z.of_nat (List.length pre)) = s.
Proof.
  unfold slice_from.
  destruct (Z.of_nat (List.length pre) <? 0) eqn:E;
    [apply Z.ltb_lt in E; lia|].
  rewrite Nat2Z.id, skipn_app, skipn_all, Nat.sub_diag. reflexivity.
Qed.

(** X13. A name offset that points at the start of a name inside the
    string table resolves to that name, whatever precedes it in the
    table (so names may share their tails); the null terminator is not
    needed for the last name of the table. *)
Theorem section_name_lookup (pre name post : bytes) (f : fobj) :
  ~ In x00 name ->
  section_name (pre ++ name ++ x00 :: post) (Z.of_nat (List.length pre)) f
  = Ret name f
  /\ section_name (pre ++ name) (Z.of_nat (List.length pre)) f = Ret name f.
Proof.
  intros Hn. rewrite !section_name_eq. unfold resolved_name.
  rewrite !slice_from_app.
  destruct (until_nul_app name post Hn) as [-> ->]. auto.
Qed.

Lemma section_name_lookup_witness :
  section_name (bytes_of ".rela" ++ rodata ++ x00 :: bytes_of ".text")
    5 rodata_first_file
  = Ret rodata rodata_first_file
  /\ section_name (bytes_of ".rela" ++ rodata) 5 rodata_first_file
     = Ret rodata rodata_first_file.
Proof.
  apply (section_name_lookup (bytes_of ".rela") rodata (bytes_of ".text")).
  intros H. vm_compute in H. intuition discriminate.
Defined.

(** ** Files of another format *)

Lemma ident_short_raises (f : fobj) :
  os_error f (trace f ++ [EvRead 16]) = false ->
  List.length (ident_block f) <> 16%nat ->
  get_rodata_header f
  = Raise (ParseError FromStructError) (after_read 16 f).
Proof.
  intros Ho Hl. unfold get_rodata_header, Ident.parse, bind.
  rewrite (_unpack_run Ident._FORMAT f) by (apply calcsize_small; simpl; auto).
  change (Z.of_nat (calcsize Ident._FORMAT)) with 16.
  rewrite Ho. fold (ident_block f).
  change (calcsize Ident._FORMAT) with 16%nat.
  apply Nat.eqb_neq in Hl. now rewrite Hl.
Qed.

Lemma wrong_magic_violation (blk : bytes) :
  List.length blk = 16%nat -> firstn 4 blk <> ELF_MAGIC ->
  exists r, first_violation tested_order blk = Some r.
Proof.
  intros Hl Hm. unfold tested_order, first_violation.
  destruct (check_short blk); [eauto|].
  destruct (check_class blk); [eauto|].
  destruct (check_byte_order blk); [eauto|].
  unfold check_magic. apply bytes_eqb_neq in Hm. rewrite Hm. eauto.
Qed.

(** X14. A file that does not start with the magic of the format is
    rejected after one read of 16 bytes: [get_rodata_header] raises a
    [ParseError] without any other call on the file, and
    [parse_webenginecore] returns [None].  This holds for a file of any
    length, shorter than the identification block included. *)
Theorem other_format_gives_none (d : disk_file) :
  df_os_error d [EvRead 16] = false ->
  firstn 4 (df_content d) <> ELF_MAGIC ->
  (exists r f',
      get_rodata_header (path_open d) = Raise (ParseError r) f'
      /\ trace f' = [EvRead 16])
  /\ parse_webenginecore (Some d) = Returns None.
Proof.
  intros Ho Hm.
  assert (H : exists r,
             get_rodata_header (path_open d)
             = Raise (ParseError r) (after_read 16 (path_open d))).
  { destruct (Nat.eq_dec (List.length (ident_block (path_open d))) 16)
      as [Hl|Hl].
    - destruct (wrong_magic_violation (ident_block (path_open d)) Hl)
        as [r Hr].
      + unfold ident_block, slice. cbn [path_open content pos].
        change (Z.to_nat 0) with 0%nat. change (Z.to_nat 16) with 16%nat.
        cbn [skipn]. rewrite firstn_firstn. exact Hm.
      + exists r. now apply ident_rejected.
    - exists FromStructError. now apply ident_short_raises. }
  destruct H as [r H]. split.
  - exists r, (after_read 16 (path_open d)). split; [exact H | reflexivity].
  - apply (parse_webenginecore_caught d r (after_read 16 (path_open d))).
    unfold _parse_from_path, bind. now rewrite H.
Qed.

Lemma other_format_gives_none_witness :
  (exists r f',
      get_rodata_header (path_open text_lib) = Raise (ParseError r) f'
      /\ trace f' = [EvRead 16])
  /\ parse_webenginecore (Some text_lib) = Returns None.
Proof.
  apply (other_format_gives_none text_lib).
  - reflexivity.
  - vm_compute. discriminate.
Defined.

(** ** From the file to the returned section header *)

Lemma Ident_parse_ok (f : fobj) (ident : Ident.t) :
  os_error f (trace f ++ [EvRead 16]) = false ->
  List.length (ident_block f) = 16%nat ->
  decode_ident (ident_block f) = Some ident ->
  Ident.parse f = Ret ident (after_read 16 f).
Proof.
  intros Ho Hl Hd. unfold Ident.parse, bind.
  rewrite (_unpack_run Ident._FORMAT f) by (apply calcsize_small; simpl; auto).
  change (Z.of_nat (calcsize Ident._FORMAT)) with 16.
  rewrite Ho. fold (ident_block f). rewrite Hl.
  change (Nat.eqb 16 (calcsize Ident._FORMAT)) with true. cbv iota.
  unfold decode_ident in Hd.
  destruct (fields _ _) as [|[m|?] [|[?|k] [|[?|dd] [|[?|v] [|[?|o] [|[?|a]
    [|? ?]]]]]]]; try discriminate.
  destruct (Bitness_of_value k); [|discriminate].
  destruct (Endianness_of_value dd); [|discriminate].
  now injection Hd as <-.
Qed.

Lemma Header_parse_ok (b : Bitness) (f : fobj) (h : Header.t) :
  nominal f -> 0 <= pos f ->
  pos f + header_size b <= file_size f ->
  decode_header b (slice (content f) (pos f) (header_size b)) = Some h ->
  Header.parse b f = Ret h (after_read (header_size b) f).
Proof.
  intros Hn Hp Hin Hd. unfold Header.parse, bind.
  rewrite _unpack_run by (destruct b; apply calcsize_small; simpl; tauto).
  rewrite Hn. fold (header_size b).
  pose proof (header_size_pos b) as Hs.
  assert (Hl : Z.of_nat (List.length
                 (slice (content f) (pos f) (header_size b)))
               = header_size b)
    by (apply slice_length; [lia | lia | exact Hin]).
  assert (El : Nat.eqb (List.length
                 (slice (content f) (pos f) (header_size b)))
                 (calcsize (Header._FORMATS b)) = true)
    by (apply Nat.eqb_eq; unfold header_size in *; lia).
  rewrite El. unfold decode_header in Hd.
  destruct b; cbn [fields Header._FORMATS] in Hd |- *;
    now injection Hd as <-.
Qed.

Lemma prelude_ok (f : fobj) (ident : Ident.t) (h : Header.t)
    (shstr : SectionHeader.t) :
  nominal f -> 0 <= pos f -> file_size f <= ssize_max ->
  List.length (ident_block f) = 16%nat ->
  decode_ident (ident_block f) = Some ident ->
  accepted_ident ident ->
  pos f + 16 + header_size (Ident.klass ident) <= file_size f ->
  decode_header (Ident.klass ident)
    (slice (content f) (pos f + 16) (header_size (Ident.klass ident)))
  = Some h ->
  entry_at (content f) (Ident.klass ident)
    (entry_offset h (Header.shstrndx h)) = Some shstr ->
  SectionHeader.offset shstr <= ssize_max ->
  SectionHeader.size shstr <= bytes_max ->
  SectionHeader.size shstr <= read_limit f ->
  exists f1,
    prelude f
    = Ret (Ident.klass ident, h,
           slice (content f) (SectionHeader.offset shstr)
             (SectionHeader.size shstr)) f1.
Proof.
  intros Hn Hp Hs Hl Hd (Hm & Hda & Hv) Hin Hdh He Hoff Hsz Hmem.
  unfold prelude, bind at 1.
  rewrite (Ident_parse_ok f ident (Hn _) Hl Hd).
  apply bytes_eqb_eq in Hm. rewrite Hm, Hda, Hv.
  cbn [negb Endianness_eqb Z.eqb Pos.eqb].
  set (f1 := after_read 16 f).
  assert (Hn1 : nominal f1) by (intros t; apply Hn).
  assert (Hp1 : pos f1 = pos f + 16).
  { subst f1. cbn [pos after_read set_pos]. fold (ident_block f).
    rewrite Hl. reflexivity. }
  unfold bind at 1.
  rewrite (Header_parse_ok (Ident.klass ident) f1 h); try assumption.
  2:{ lia. }
  2:{ rewrite Hp1. exact Hin. }
  2:{ rewrite Hp1. exact Hdh. }
  set (f2 := after_read _ f1).
  assert (Hn2 : nominal f2) by (intros t; apply Hn).
  fold (entry_offset h (Header.shstrndx h)).
  pose proof (entry_at_range _ _ _ _ He) as Hr.
  pose proof (entry_at_nonneg _ _ _ _ He) as [Ho0 Hs0].
  pose proof (sh_size_pos (Ident.klass ident)) as Hss.
  unfold file_size in Hs.
  rewrite visit_run by (auto; lia).
  change (content f2) with (content f). rewrite He.
  set (f4 := visited _ _ f2).
  assert (Hn4 : nominal f4) by (intros t; apply Hn).
  unfold bind. rewrite seek_ok by (auto; lia).
  set (f5 := set_pos _ _).
  change (read_limit f) with (read_limit f5) in Hmem.
  rewrite read_ok by (try apply Hn; lia).
  eexists. reflexivity.
Qed.

(** X15. The converse of X5, on a device without errors and for a file
    that fits the offsets of the platform.  When the identification
    block has its 16 bytes and is accepted, the primary header is in
    the file after it, the entry of index [shstrndx] is in the file and
    the size that it announces for the string table is one that
    [f.read] accepts and can allocate (at most [bytes_max] and at most
    [read_limit f]), and, with the string table being the bytes of the
    range it describes, the entry of index [k] below [shnum] is named
    .rodata,
    no entry before it being so named and all being in the file, then
    [get_rodata_header] returns the entry of index [k]. *)
Theorem get_rodata_header_complete (f : fobj) (ident : Ident.t)
    (h : Header.t) (shstr sh : SectionHeader.t) (k : Z) :
  nominal f -> 0 <= pos f -> file_size f <= ssize_max ->
  List.length (ident_block f) = 16%nat ->
  decode_ident (ident_block f) = Some ident ->
  accepted_ident ident ->
  pos f + 16 + header_size (Ident.klass ident) <= file_size f ->
  decode_header (Ident.klass ident)
    (slice (content f) (pos f + 16) (header_size (Ident.klass ident)))
  = Some h ->
  entry_at (content f) (Ident.klass ident)
    (entry_offset h (Header.shstrndx h)) = Some shstr ->
  SectionHeader.offset shstr <= ssize_max ->
  SectionHeader.size shstr <= bytes_max ->
  SectionHeader.size shstr <= read_limit f ->
  0 <= k < Header.shnum h ->
  rodata_entry (content f) (Ident.klass ident) h
    (slice (content f) (SectionHeader.offset shstr)
       (SectionHeader.size shstr)) k sh ->
  (forall j, 0 <= j < k ->
             other_entry (content f) (Ident.klass ident) h
               (slice (content f) (SectionHeader.offset shstr)
                  (SectionHeader.size shstr)) j) ->
  exists f', get_rodata_header f = Ret sh f'.
Proof.
  intros Hn Hp Hs Hl Hd Ha Hin Hdh He Hoff Hsz Hmem Hk Hr Ho.
  destruct (prelude_ok f ident h shstr Hn Hp Hs Hl Hd Ha Hin Hdh He Hoff Hsz
              Hmem)
    as [f1 Hpre].
  destruct (get_rodata_header_found f f1 _ h _ k sh Hn Hs Hpre Hk Ho Hr)
    as (f2 & E & _).
  now exists f2.
Qed.

Lemma get_rodata_header_complete_witness :
  exists f',
    get_rodata_header rodata_second_file
    = Ret (SectionHeader.mk 1 1 0 0 4096 0 0 0 1 0) f'.
Proof.
  eapply (get_rodata_header_complete rodata_second_file
            (Ident.mk ELF_MAGIC x64 little 1 0 0)
            (Header.mk 3 62 1 0 0 64 0 64 0 0 64 3 2)
            (SectionHeader.mk 9 1 0 0 256 25 0 0 1 0) _ 1).
  - intros t. reflexivity.
  - vm_compute. discriminate.
  - vm_compute. discriminate.
  - vm_compute. reflexivity.
  - vm_compute. reflexivity.
  - repeat split.
  - vm_compute. discriminate.
  - vm_compute. reflexivity.
  - vm_compute. reflexivity.
  - vm_compute. discriminate.
  - vm_compute. discriminate.
  - vm_compute. discriminate.
  - cbn [Header.shnum]. lia.
  - split; vm_compute; reflexivity.
  - intros j Hj. assert (j = 0) as -> by lia.
    eexists; split; [vm_compute; reflexivity | vm_compute; discriminate].
Defined.

(** ** The boundary *)

(** X17. A call of [parse_webenginecore] either returns, or lets out an
    [OSError], a [ValueError], an [OverflowError] or a [MemoryError]
    raised by a call on the file ([f.seek], [f.read] of the string table
    or [mmap.mmap]): no [ParseError] and no other exception of the
    parser leaves it. *)
Theorem parse_webenginecore_outcomes (lib_file : option disk_file) :
  (exists v, parse_webenginecore lib_file = Returns v)
  \/ (exists e,
        parse_webenginecore lib_file = Propagates e
        /\ (e = OSError \/ e = ValueError \/ e = OverflowError
            \/ e = MemoryError)).
Proof.
  destruct lib_file as [d|]; [|left; now exists None].
  unfold parse_webenginecore, try_except, bind.
  destruct (_parse_from_path (path_open d)) as [v f'|e f'] eqn:E.
  - left. now exists (Some v).
  - apply raises__parse_from_path in E.
    destruct e; cbn in E |- *; try contradiction; eauto 8.
Qed.

(** * scripts/importer.py *)

(** X16. Whatever the command-line flags, when [main] calls
    [import_netscape_bookmarks], the bookmark types that it passes are
    not empty and without duplicates, each is a key of the dict
    [bookmark_query], and the dict [output_template] has a template for
    each under the output format that it passes: none of the lookups
    [bookmark_query[typ]] and [output_template[output_format][typ]] can
    raise [KeyError]. *)
Theorem importer_lookups_defined (args : Importer.Args) (file : string)
    (types : list string) (format : string) :
  Importer.main args = Some (file, types, format) ->
  types <> []
  /\ NoDup types
  /\ forall typ, In typ types ->
       In typ Importer.bookmark_query_keys
       /\ exists row template,
            Importer.dict_get format Importer.output_template = Some row
            /\ Importer.dict_get typ row = Some template.
Proof.
  destruct args as [br bo qo so nc sq bq kq bm]. unfold Importer.main.
  cbn [Importer.search_query Importer.search_output Importer.newconfig
       Importer.bookmark_output Importer.quickmark_output
       Importer.bookmark_query Importer.keyword_query Importer.browser
       Importer.bookmarks].
  destruct (existsb _ _);
    destruct bo, qo, so, nc, sq, bq, kq; cbn; intros H;
    try discriminate H; injection H as <- <- <-;
    (split; [discriminate|]);
    (split; [repeat constructor; cbn; intuition discriminate|]);
    intros typ Ht; cbn in Ht;
    repeat (destruct Ht as [<- | Ht];
            [split; [cbn; tauto | do 2 eexists; split; reflexivity]|]);
    contradiction.
Qed.

Lemma importer_lookups_defined_witness :
  ["bookmark"%string] <> []
  /\ NoDup ["bookmark"%string]
  /\ forall typ, In typ ["bookmark"%string] ->
       In typ Importer.bookmark_query_keys
       /\ exists row template,
            Importer.dict_get "bookmark" Importer.output_template = Some row
            /\ Importer.dict_get typ row = Some template.
Proof.
  apply (importer_lookups_defined
           (Importer.mkArgs "firefox" true false false true false true false
              "bookmarks.html")
           "bookmarks.html").
  reflexivity.
Defined.
